(** * Retention kernels of yet_another_retnet/retention.py

    A shallow embedding of the decay schedule, the decay mask, the parallel
    and the recurrent retention kernels and the constructor validation of
    [MultiheadRetention], over exact real arithmetic.

    A torch tensor is a shape together with its elements.  Floating-point
    values are idealised as real numbers; the only non-finite value the code
    creates on purpose, [float("inf")] in the decay mask, is modelled
    explicitly. *)

From Stdlib Require Import Reals Lra Lia List ZArith Bool PeanoNat.
Import ListNotations.

Open Scope R_scope.

(** ** Tensors *)

Record Tensor (E : Type) : Type := mkTensor {
  shape : list nat;
  get : list nat -> E
}.
Arguments mkTensor {E} _ _.
Arguments shape {E} _.
Arguments get {E} _ _.

(** [t.shape[i]] *)
Definition dim {E} (t : Tensor E) (i : nat) : nat := nth i (shape t) 0%nat.

(** An index addresses an element of a tensor of shape [sh]. *)
Definition in_bounds (ix sh : list nat) : Prop := Forall2 lt ix sh.

(** Two tensors are equal when they have the same shape and elements. *)
Definition tensor_eq {E} (a b : Tensor E) : Prop :=
  shape a = shape b /\ forall ix, in_bounds ix (shape a) -> get a ix = get b ix.

Definition tmap {A B} (f : A -> B) (t : Tensor A) : Tensor B :=
  mkTensor (shape t) (fun ix => f (get t ix)).

(** Index functions of a fixed rank. *)
Definition ix1 {E} (d : E) (f : nat -> E) (ix : list nat) : E :=
  match ix with [i] => f i | _ => d end.
Definition ix3 {E} (d : E) (f : nat -> nat -> nat -> E) (ix : list nat) : E :=
  match ix with [i; j; k] => f i j k | _ => d end.
Definition ix4 {E} (d : E) (f : nat -> nat -> nat -> nat -> E)
    (ix : list nat) : E :=
  match ix with [i; j; k; l] => f i j k l | _ => d end.

(** [sum_{k < n} f k] *)
Fixpoint Rsum (n : nat) (f : nat -> R) : R :=
  match n with
  | O => 0
  | S k => Rsum k f + f k
  end.

(** *** Broadcasting

    An elementwise operation on two tensors of the same rank: an axis of size
    1 is stretched to the size of the other operand's axis.  (torch raises
    when two sizes differ and neither is 1; the kernels are only used on
    operands that broadcast.) *)

Fixpoint map2 {A B C} (f : A -> B -> C) (l : list A) (m : list B) : list C :=
  match l, m with
  | a :: l', b :: m' => f a b :: map2 f l' m'
  | _, _ => []
  end.

Definition bdim (x y : nat) : nat := if (x =? 1)%nat then y else x.
Definition bclamp (d i : nat) : nat := if (d =? 1)%nat then 0%nat else i.

Definition broadcast {A B C} (op : A -> B -> C) (a : Tensor A) (b : Tensor B)
    : Tensor C :=
  mkTensor (map2 bdim (shape a) (shape b))
           (fun ix => op (get a (map2 bclamp (shape a) ix))
                         (get b (map2 bclamp (shape b) ix))).

(** [t.unsqueeze(0)], and einops' ["... -> () ..."] *)
Definition unsqueeze_first {E} (t : Tensor E) : Tensor E :=
  mkTensor (1%nat :: shape t) (fun ix => get t (tl ix)).

(** [t.unsqueeze(-1)], and einops' ["... -> ... ()"] *)
Definition unsqueeze_last {E} (t : Tensor E) : Tensor E :=
  mkTensor (shape t ++ [1%nat]) (fun ix => get t (removelast ix)).

(** [t[:, :, i]] of a tensor of rank 4: the slice at sequence position [i]. *)
Definition select2 {E} (i : nat) (t : Tensor E) : Tensor E :=
  mkTensor [dim t 0; dim t 1; dim t 3]
           (fun ix => match ix with
                      | [b; h; d] => get t [b; h; i; d]
                      | _ => get t []
                      end).

(** ** Decay schedule *)

(** [torch.linspace(start, end, steps)]: [steps] evenly spaced values from
    [start] to [end] inclusive; the single value [start] when [steps = 1]. *)
Definition linspace (start stop : R) (steps : nat) : Tensor R :=
  mkTensor [steps]
    (ix1 0 (fun i =>
       if (steps =? 1)%nat then start
       else start + INR i * ((stop - start) / INR (steps - 1)))).

Definition _build_decay_gammas (num_heads : nat) : Tensor R :=
  let xmin := ln (1 / 32) in
  let xmax := ln (1 / 512) in
  let x := linspace xmin xmax num_heads in
  tmap (fun e => 1 - exp e) x.

(** ** Decay mask *)

(** An entry of the float tensor [distance]: a whole number of steps, or
    [float("inf")]. *)
Inductive Distance : Type :=
  | Steps (n : nat)
  | Inf.

(** [g ** d] for a float exponent that is a whole number or infinite.  The
    result is no real number ([+inf]) when [|g| > 1] and [d] is infinite.
    A power of finitely many steps is taken as the real number it is: that
    a float format overflows on a large one is left out, as rounding is, so
    [None] is an infinite entry of the code but not every infinite entry of
    the code is a [None]. *)
Definition float_pow (g : R) (d : Distance) : option R :=
  match d with
  | Steps n => Some (g ^ n)
  | Inf =>
      if Rlt_dec (Rabs g) 1 then Some 0
      else if Req_dec_T (Rabs g) 1 then Some 1
      else None
  end.

(** All indices of a tensor of shape [sh], in row-major order. *)
Fixpoint indices (sh : list nat) : list (list nat) :=
  match sh with
  | [] => [[]]
  | d :: rest => flat_map (fun i => map (cons i) (indices rest)) (seq 0 d)
  end.

Definition is_finite (o : option R) : bool :=
  match o with Some _ => true | None => false end.

Definition finite_value (o : option R) : R :=
  match o with Some r => r | None => 0 end.

(** A tensor all of whose elements are real numbers, as a real tensor. *)
Definition finite_tensor (t : Tensor (option R)) : option (Tensor R) :=
  if forallb (fun ix => is_finite (get t ix)) (indices (shape t))
  then Some (tmap finite_value t)
  else None.

(** [torch.arange(n)]: the positions [0 .. n-1]. *)
Definition arange (n : nat) : Tensor Z := mkTensor [n] (ix1 0%Z Z.of_nat).

Definition ones_like {E} (t : Tensor E) : Tensor bool :=
  mkTensor (shape t) (fun _ => true).

(** [t.triu_(diagonal)]: the elements below the given diagonal are cleared. *)
Definition triu_ (diagonal : Z) (t : Tensor bool) : Tensor bool :=
  mkTensor (shape t)
    (fun ix => match ix with
               | [i; j] =>
                   if (diagonal <=? Z.of_nat j - Z.of_nat i)%Z
                   then get t ix else false
               | _ => false
               end).

Definition masked_fill {E} (t : Tensor E) (mask : Tensor bool) (v : E)
    : Tensor E :=
  mkTensor (shape t) (fun ix => if get mask ix then v else get t ix).

(** Positions are whole numbers held as floats, so a distance is a whole
    number of steps until the strict upper triangle is filled with
    [float("inf")].  The result is [None] when an entry of the mask is not a
    real number. *)
Definition _build_decay_mask (query_length key_length : nat)
    (decay_gammas : Tensor R) : option (Tensor R) :=
  let query_pos := arange query_length in
  let key_pos := arange key_length in
  let distance :=
    tmap (fun z => Steps (Z.abs_nat z))
         (broadcast Z.sub (unsqueeze_last query_pos)
                          (unsqueeze_first key_pos)) in
  let distance_mask := triu_ 1 (ones_like distance) in
  let distance := masked_fill distance distance_mask Inf in
  let distance := unsqueeze_first distance in
  let decay_gammas := unsqueeze_last (unsqueeze_last decay_gammas) in
  finite_tensor (broadcast float_pow decay_gammas distance).

(** ** Contractions *)

(** [einsum(q, k, "b h n d, b h s d -> b h n s")] *)
Definition einsum_bhnd_bhsd_bhns (q k : Tensor R) : Tensor R :=
  mkTensor [dim q 0; dim q 1; dim q 2; dim k 2]
    (ix4 0 (fun b h n s =>
       Rsum (dim q 3) (fun d => get q [b; h; n; d] * get k [b; h; s; d]))).

(** [einsum(w, v, "b h n s, b h s d -> b h n d")] *)
Definition einsum_bhns_bhsd_bhnd (w v : Tensor R) : Tensor R :=
  mkTensor [dim w 0; dim w 1; dim w 2; dim v 3]
    (ix4 0 (fun b h n d =>
       Rsum (dim w 3) (fun s => get w [b; h; n; s] * get v [b; h; s; d]))).

(** [einsum(k, v, "b h d, b h m -> b h d m")] *)
Definition einsum_bhd_bhm_bhdm (k v : Tensor R) : Tensor R :=
  mkTensor [dim k 0; dim k 1; dim k 2; dim v 2]
    (ix4 0 (fun b h d m => get k [b; h; d] * get v [b; h; m])).

(** [einsum(q, s, "b h d, b h d m -> b h m")] *)
Definition einsum_bhd_bhdm_bhm (q s : Tensor R) : Tensor R :=
  mkTensor [dim q 0; dim q 1; dim s 3]
    (ix3 0 (fun b h m =>
       Rsum (dim q 2) (fun d => get q [b; h; d] * get s [b; h; d; m]))).

(** ** The two kernels *)

(** [if decay_gammas is None: decay_gammas = _build_decay_gammas(...)], the
    opening of both kernels. *)
Definition gammas_or_default (decay_gammas : option (Tensor R))
    (query : Tensor R) : Tensor R :=
  match decay_gammas with
  | Some g => g
  | None => _build_decay_gammas (dim query 1)
  end.

(** The parallel kernel on [query] of shape [(B,H,N,Dh)], [key] of shape
    [(B,H,S,Dh)] and [value] of shape [(B,H,S,Dv)]. *)
Definition retention_parallel (query key value : Tensor R)
    (decay_gammas : option (Tensor R)) (need_weights : bool)
    : option (Tensor R * option (Tensor R)) :=
  let decay_gammas := gammas_or_default decay_gammas query in
  match _build_decay_mask (dim query 2) (dim key 2) decay_gammas with
  | None => None
  | Some decay_mask =>
      let similarity := einsum_bhnd_bhsd_bhns query key in
      let similarity :=
        broadcast Rmult similarity (unsqueeze_first decay_mask) in
      let retention := einsum_bhns_bhsd_bhnd similarity value in
      if need_weights then Some (retention, Some similarity)
      else Some (retention, None)
  end.

(** The recurrent kernel on one timestep: [query] and [key] of shape
    [(B,H,Dh)], [value] of shape [(B,H,Dv)], the previous state of shape
    [(B,H,Dh,Dv)] or absent. *)
Definition retention_recurrent (query key value : Tensor R)
    (prev_state : option (Tensor R)) (decay_gammas : option (Tensor R))
    : Tensor R * Tensor R :=
  let decay_gammas := gammas_or_default decay_gammas query in
  let state := einsum_bhd_bhm_bhdm key value in
  let state :=
    match prev_state with
    | Some prev =>
        broadcast Rplus state
          (broadcast Rmult prev
             (unsqueeze_first (unsqueeze_last (unsqueeze_last decay_gammas))))
    | None => state
    end in
  let retention := einsum_bhd_bhdm_bhm query state in
  (retention, state).

(** The caller's loop: one call of the recurrent kernel per timestep in
    [steps], each fed the slice of the sequence at that step and the state
    returned by the previous call.  The outputs are collected in order. *)
Fixpoint recurrent_loop (query key value : Tensor R)
    (decay_gammas : option (Tensor R)) (steps : list nat)
    (prev_state : option (Tensor R)) : list (Tensor R) :=
  match steps with
  | [] => []
  | i :: rest =>
      let '(yr, state) :=
        retention_recurrent (select2 i query) (select2 i key)
                            (select2 i value) prev_state decay_gammas in
      yr :: recurrent_loop query key value decay_gammas rest (Some state)
  end.

(** A batch in which every position of every head holds the vector [x]. *)
Definition same_vector (B H N : nat) (x : Tensor R) : Tensor R :=
  mkTensor [B; H; N; dim x 0] (ix4 0 (fun _ _ _ d => get x [d])).

(** ** The recurrent kernel over an object store

    Tensors are Python objects: a variable holds a reference, and an
    operation either allocates a new tensor or (when it is an in-place
    operation) overwrites an existing one.  The store is the list of all
    tensors allocated so far; a reference is a position in it. *)

Module Store.

Definition ref := nat.
Definition store := list (Tensor R).

(** A computation reads and extends the store, or fails on a dangling
    reference. *)
Definition M (A : Type) : Type := store -> option (A * store).

Definition ret {A} (a : A) : M A := fun st => Some (a, st).

Definition bind {A B} (m : M A) (f : A -> M B) : M B :=
  fun st => match m st with
            | Some (a, st') => f a st'
            | None => None
            end.

Definition load (r : ref) : M (Tensor R) :=
  fun st => match nth_error st r with
            | Some t => Some (t, st)
            | None => None
            end.

Definition new (t : Tensor R) : M ref :=
  fun st => Some (length st, st ++ [t]).

(** An in-place operation ([triu_] and the like) replaces the tensor a
    reference points to. *)
Fixpoint replace_at (st : store) (r : ref) (t : Tensor R) : store :=
  match st, r with
  | [], _ => []
  | _ :: rest, O => t :: rest
  | x :: rest, S r' => x :: replace_at rest r' t
  end.

Definition overwrite (r : ref) (t : Tensor R) : M unit :=
  fun st => match nth_error st r with
            | Some _ => Some (tt, replace_at st r t)
            | None => None
            end.

Notation "x <- m ;; k" := (bind m (fun x => k))
  (at level 61, m at next level, right associativity).

(** An out-of-place operation on one or two tensors. *)
Definition op1 (f : Tensor R -> Tensor R) (a : ref) : M ref :=
  ta <- load a ;; new (f ta).

Definition op2 (f : Tensor R -> Tensor R -> Tensor R) (a b : ref) : M ref :=
  ta <- load a ;; tb <- load b ;; new (f ta tb).

(** The recurrent kernel, statement by statement; none of its operations is
    in place. *)
Definition retention_recurrent (query key value : ref)
    (prev_state : option ref) (decay_gammas : option ref) : M (ref * ref) :=
  decay_gammas <-
    match decay_gammas with
    | Some g => ret g
    | None => op1 (fun q => _build_decay_gammas (dim q 1)) query
    end ;;
  state <- op2 einsum_bhd_bhm_bhdm key value ;;
  state <-
    match prev_state with
    | Some prev =>
        g <- op1 (fun g =>
                    unsqueeze_first (unsqueeze_last (unsqueeze_last g)))
                 decay_gammas ;;
        scaled <- op2 (broadcast Rmult) prev g ;;
        op2 (broadcast Rplus) state scaled
    | None => ret state
    end ;;
  retention <- op2 einsum_bhd_bhdm_bhm query state ;;
  ret (retention, state).

(** The optional argument [r] refers to the tensor [t], or both are absent. *)
Definition holds (st : store) (r : option ref) (t : option (Tensor R))
    : Prop :=
  match r, t with
  | Some r, Some t => nth_error st r = Some t
  | None, None => True
  | _, _ => False
  end.

(** The later store keeps every object of the earlier one as it was. *)
Definition preserves (st st' : store) : Prop :=
  forall r t, nth_error st r = Some t -> nth_error st' r = Some t.

End Store.

(** ** Construction of the module *)

Module MultiheadRetention.

Inductive Error : Type :=
  | NotImplementedError
  | ValueError
  | ZeroDivisionError
  | RuntimeError.

Inductive result (A : Type) : Type :=
  | Ok (a : A)
  | Raise (e : Error).
Arguments Ok {A} _.
Arguments Raise {A} _.

Definition bind {A B} (m : result A) (f : A -> result B) : result B :=
  match m with
  | Ok a => f a
  | Raise e => Raise e
  end.

Notation "x <- m ;; k" := (bind m (fun x => k))
  (at level 61, m at next level, right associativity).

(** [if c: raise e] *)
Definition raise_if (c : bool) (e : Error) : result unit :=
  if c then Raise e else Ok tt.

(** Python's [a % b] and [a // b] on integers: the remainder has the sign of
    the divisor and the quotient is rounded down, as [Z.modulo] and [Z.div]
    do; a zero divisor raises. *)
Definition py_mod (a b : Z) : result Z :=
  if (b =? 0)%Z then Raise ZeroDivisionError else Ok (a mod b)%Z.

Definition py_floordiv (a b : Z) : result Z :=
  if (b =? 0)%Z then Raise ZeroDivisionError else Ok (a / b)%Z.

(** The fields [__init__] sets. *)
Record t : Type := mk {
  embed_dim : Z;
  num_heads : Z;
  dropout : R;
  bias : bool;
  batch_first : bool
}.

(** The layers of torch the constructor builds.  Their weights are drawn at
    random; what is kept of them is whether building them raises. *)

(** [nn.Linear(in_features, out_features)] allocates a weight of shape
    [(out_features, in_features)]; torch refuses a negative size. *)
Definition nn_Linear (in_features out_features : Z) : result unit :=
  raise_if ((in_features <? 0) || (out_features <? 0))%Z RuntimeError.

(** [nn.GroupNorm(num_groups, num_channels, affine=False)] checks that
    [num_channels % num_groups] is zero and allocates nothing. *)
Definition nn_GroupNorm (num_groups num_channels : Z) : result unit :=
  r <- py_mod num_channels num_groups ;;
  raise_if (negb (r =? 0)%Z) ValueError.

(** [nn.init.xavier_normal_] on a weight of shape [(fan_out, fan_in)] draws
    with the deviation [sqrt(2 / (fan_in + fan_out))]: the division raises
    for an empty weight. *)
Definition xavier_normal_ (fan_in fan_out : Z) : result unit :=
  raise_if (fan_in + fan_out =? 0)%Z ZeroDivisionError.

(** The five weights are of shape [(embed_dim, embed_dim)]; a bias is set to
    zero, which cannot raise. *)
Definition _reset_parameters (embed_dim : Z) : result unit :=
  _ <- xavier_normal_ embed_dim embed_dim ;;
  _ <- xavier_normal_ embed_dim embed_dim ;;
  _ <- xavier_normal_ embed_dim embed_dim ;;
  _ <- xavier_normal_ embed_dim embed_dim ;;
  xavier_normal_ embed_dim embed_dim.

Definition __init__ (embed_dim num_heads : Z) (dropout : R)
    (bias batch_first : bool) : result t :=
  _ <- raise_if (negb batch_first) NotImplementedError ;;
  let self := mk embed_dim num_heads dropout bias batch_first in
  r <- py_mod embed_dim self.(MultiheadRetention.num_heads) ;;
  _ <- raise_if (negb (r =? 0)%Z) ValueError ;;
  head_dim <- py_floordiv embed_dim num_heads ;;
  r8 <- py_mod head_dim 8 ;;
  _ <- raise_if (negb (r8 =? 0)%Z) ValueError ;;
  _ <- raise_if (negb (head_dim <=? 128)%Z) ValueError ;;
  _ <- nn_Linear embed_dim embed_dim ;;
  _ <- nn_Linear embed_dim embed_dim ;;
  _ <- nn_Linear embed_dim embed_dim ;;
  _ <- nn_GroupNorm num_heads num_heads ;;
  _ <- nn_Linear embed_dim embed_dim ;;
  _ <- nn_Linear embed_dim embed_dim ;;
  _ <- _reset_parameters embed_dim ;;
  Ok self.

Definition raises {A} (r : result A) : Prop :=
  exists e, r = Raise e.

(** [a] is evenly divisible by [b]: [a / b] is a whole number.  Nothing is
    divisible by zero. *)
Definition evenly_divisible (a b : Z) : Prop :=
  b <> 0%Z /\ (a mod b = 0)%Z.

(** Construction with [batch_first=True] raises exactly as the
    specification says: when the embedding dimension is not evenly divisible
    by the head count, or the head dimension is no multiple of 8, or it
    exceeds 128. *)
Definition raises_as_specified (embed_dim num_heads : Z) (dropout : R)
    (bias : bool) : Prop :=
  raises (__init__ embed_dim num_heads dropout bias true) <->
  ~ evenly_divisible embed_dim num_heads \/
  ((embed_dim / num_heads) mod 8 <> 0)%Z \/
  (128 < embed_dim / num_heads)%Z.

End MultiheadRetention.

(** ** Statements of the specification *)

(** The schedule in the specification's words: [H] exponents linearly
    interpolated from [log(1/32)] to [log(1/512)], the [h]-th at the fraction
    [h / (H - 1)] of the way (the start bound when there is one exponent),
    each mapped to [1 - e^x]. *)
Definition interpolated_exponent (H h : nat) : R :=
  let t := if (H =? 1)%nat then 0 else INR h / INR (H - 1) in
  (1 - t) * ln (1 / 32) + t * ln (1 / 512).

Definition schedule_spec (H h : nat) : R := 1 - exp (interpolated_exponent H h).

(** The decay mask in the specification's words. *)
Definition decay_mask_spec (g : R) (i j : nat) : R :=
  if (j <=? i)%nat then g ^ (i - j) else 0.

(** Decay coefficients a caller may supply for [H] heads: one per head,
    each of absolute value below 1 (the default schedule when absent). *)
Definition valid_gammas (H : nat) (g : option (Tensor R)) : Prop :=
  match g with
  | Some g => shape g = [H] /\ forall h, (h < H)%nat -> -1 < get g [h] < 1
  | None => True
  end.

Definition gammas_for (H : nat) (g : option (Tensor R)) : Prop :=
  match g with
  | Some g => shape g = [H]
  | None => True
  end.

Definition state_for (sh : list nat) (s : option (Tensor R)) : Prop :=
  match s with
  | Some s => shape s = sh
  | None => True
  end.

(** The recurrent state in the specification's words: a summary of the
    first [t] key-value products [kv 0 .. kv (t-1)], each decayed by [gamma]
    once per later timestep. *)
Definition decayed_sum (gamma : R) (kv : nat -> R) (t : nat) : R :=
  Rsum t (fun j => gamma ^ (t - 1 - j) * kv j).

Definition accumulated_state (key value gammas : Tensor R)
    (t b h d m : nat) : R :=
  decayed_sum (get gammas [h])
    (fun j => get key [b; h; j; d] * get value [b; h; j; m]) t.

(** What the caller's loop holds in [prev_state] before timestep [t]. *)
Definition state_at (sh : list nat) (key value gammas : Tensor R) (t : nat)
    (prev : option (Tensor R)) : Prop :=
  match prev with
  | None => t = 0%nat
  | Some p =>
      shape p = sh /\
      forall b h d m, in_bounds [b; h; d; m] sh ->
        get p [b; h; d; m] = accumulated_state key value gammas t b h d m
  end.

(** Scenario B of the specification, for the vector [x] fed at every
    position: position 0 of the parallel output is the value vector. *)
Definition scenario_B (x : Tensor R) : Prop :=
  let t := same_vector 1 2 8 x in
  exists out w,
    retention_parallel t t t None false = Some (out, w) /\
    tensor_eq (select2 0 out) (select2 0 t).

(** Position 0 of the parallel output of scenario B as the kernel computes
    it: the value vector scaled by the similarity of the position with
    itself, the squared norm of [x]. *)
Definition squared_norm (x : Tensor R) : R :=
  Rsum (dim x 0) (fun d => get x [d] * get x [d]).

Definition scenario_B_scaled (x : Tensor R) : Prop :=
  let t := same_vector 1 2 8 x in
  exists out w,
    retention_parallel t t t None false = Some (out, w) /\
    tensor_eq (select2 0 out) (tmap (Rmult (squared_norm x)) (select2 0 t)).

(** [torch.full(sh, c)] *)
Definition full (sh : list nat) (c : R) : Tensor R :=
  mkTensor sh (fun _ => c).

(** The loop over a sequence of length [T] and one call of the parallel
    kernel agree: the loop yields [T] outputs, and the output of timestep
    [i] is row [i] of the parallel output. *)
Definition kernels_agree (T : nat) (query key value : Tensor R)
    (decay_gammas : option (Tensor R)) : Prop :=
  let outputs :=
    recurrent_loop query key value decay_gammas (seq 0 T) None in
  length outputs = T /\
  exists out,
    (forall need_weights, exists w,
       retention_parallel query key value decay_gammas need_weights
       = Some (out, w)) /\
    forall i, (i < T)%nat ->
      exists y, nth_error outputs i = Some y /\ tensor_eq y (select2 i out).

(** ** The layers of torch the module is built from *)

(** [nn.Linear]: a weight of shape [(out_features, in_features)] and, when
    the layer has one, a bias of shape [(out_features)]. *)
Record Linear : Type := mkLinear {
  weight : Tensor R;
  linear_bias : option (Tensor R)
}.

(** [layer(x)] for [x] of shape [(..., in_features)]:
    [y[..., o] = sum_i x[..., i] * weight[o, i] + bias[o]]. *)
Definition linear (layer : Linear) (x : Tensor R) : Tensor R :=
  mkTensor (removelast (shape x) ++ [dim (weight layer) 0])
    (fun ix =>
       let o := last ix 0%nat in
       Rsum (dim (weight layer) 1)
            (fun i => get x (removelast ix ++ [i]) *
                      get (weight layer) [o; i]) +
       match linear_bias layer with
       | Some b => get b [o]
       | None => 0
       end).

(** [torch.nn.functional.silu]: [x * sigmoid(x)]. *)
Definition silu (x : Tensor R) : Tensor R :=
  tmap (fun a => a * (1 / (1 + exp (- a)))) x.

(** [F.dropout(input, p, training)].  The call raises ([None]) when [p] is
    not a probability, also outside training.  In training an element is
    kept and scaled by [1 / (1 - p)], or zeroed; [keep] is the random draw.
    Outside training the input is returned. *)
Definition F_dropout (input : Tensor R) (p : R) (training : bool)
    (keep : list nat -> bool) : option (Tensor R) :=
  if Rle_dec 0 p then
    if Rle_dec p 1 then
      Some (if training then
              if Req_dec_T p 1 then tmap (fun _ => 0) input
              else mkTensor (shape input)
                     (fun ix => if keep ix then get input ix / (1 - p)
                                else 0)
            else input)
    else None
  else None.

(** [nn.GroupNorm(num_groups, num_channels, affine=False, eps)] on an input
    of shape [(N, C, L)]: the channels are split into [num_groups] groups of
    [C / num_groups] consecutive channels, and every element is normalised
    by the mean and the (biased) variance of its group within its row.
    (torch raises on an input whose groups hold a single value each in a
    single row; such inputs are left out.) *)
Definition group_norm (num_groups : nat) (eps : R) (x : Tensor R)
    : Tensor R :=
  let per_group := (dim x 1 / num_groups)%nat in
  let L := dim x 2 in
  let count := INR (per_group * L) in
  let mean n g :=
    Rsum per_group (fun c =>
      Rsum L (fun l => get x [n; (g * per_group + c)%nat; l])) / count in
  let var n g :=
    Rsum per_group (fun c =>
      Rsum L (fun l =>
        (get x [n; (g * per_group + c)%nat; l] - mean n g) ^ 2)) / count in
  mkTensor (shape x)
    (ix3 0 (fun n c l =>
       let g := (c / per_group)%nat in
       (get x [n; c; l] - mean n g) / sqrt (var n g + eps))).

(** *** einops patterns of the module *)

(** [rearrange(x, "b n (h d) -> b h n d", h=h)] *)
Definition rearrange_bn_hd_to_bhnd (h : nat) (x : Tensor R) : Tensor R :=
  let d := (dim x 2 / h)%nat in
  mkTensor [dim x 0; h; dim x 1; d]
    (ix4 0 (fun b hh n dd => get x [b; n; (hh * d + dd)%nat])).

(** [rearrange(x, "b (h d) -> b h d", h=h)] *)
Definition rearrange_b_hd_to_bhd (h : nat) (x : Tensor R) : Tensor R :=
  let d := (dim x 1 / h)%nat in
  mkTensor [dim x 0; h; d]
    (ix3 0 (fun b hh dd => get x [b; (hh * d + dd)%nat])).

(** [rearrange(x, "b h n d -> (b n) h d")] *)
Definition rearrange_bhnd_to_bn_hd (x : Tensor R) : Tensor R :=
  let n := dim x 2 in
  mkTensor [(dim x 0 * n)%nat; dim x 1; dim x 3]
    (ix3 0 (fun r h d => get x [(r / n)%nat; h; (r mod n)%nat; d])).

(** [rearrange(x, "(b n) h d -> b n (h d)", b=b)] *)
Definition rearrange_bn_hd_to_bn_hd (b : nat) (x : Tensor R) : Tensor R :=
  let n := (dim x 0 / b)%nat in
  let d := dim x 2 in
  mkTensor [b; n; (dim x 1 * d)%nat]
    (ix3 0 (fun bb nn c =>
       get x [(bb * n + nn)%nat; (c / d)%nat; (c mod d)%nat])).

(** [rearrange(x, "b h d -> b (h d)")] *)
Definition rearrange_bhd_to_b_hd (x : Tensor R) : Tensor R :=
  let d := dim x 2 in
  mkTensor [dim x 0; (dim x 1 * d)%nat]
    (fun ix => match ix with
               | [b; c] => get x [b; (c / d)%nat; (c mod d)%nat]
               | _ => 0
               end).

(** [x[:, i]] of a tensor of rank 3. *)
Definition select1 (i : nat) (x : Tensor R) : Tensor R :=
  mkTensor [dim x 0; dim x 2]
    (fun ix => match ix with
               | [b; d] => get x [b; i; d]
               | _ => 0
               end).

(** ** The forward passes of the module *)

(** The module after construction: the fields [__init__] sets, its five
    projection layers, the [eps] of its group normalisation (over
    [num_heads] groups) and the training flag of [nn.Module]. *)
Record Layers : Type := mkLayers {
  config : MultiheadRetention.t;
  q_proj : Linear;
  k_proj : Linear;
  v_proj : Linear;
  group_norm_eps : R;
  g_proj : Linear;
  out_proj : Linear;
  training : bool
}.

Definition heads (self : Layers) : nat :=
  Z.to_nat (MultiheadRetention.num_heads (config self)).

(** The result is [None] when the call raises, which it does when the
    dropout probability is not in [[0, 1]]. *)
Definition forward_parallel (self : Layers) (query key value : Tensor R)
    (need_weights : bool) (keep : list nat -> bool)
    : option (Tensor R * option (Tensor R)) :=
  let q := linear (q_proj self) query in
  let k := linear (k_proj self) key in
  let v := linear (v_proj self) value in
  let q := rearrange_bn_hd_to_bhnd (heads self) q in
  let k := rearrange_bn_hd_to_bhnd (heads self) k in
  let v := rearrange_bn_hd_to_bhnd (heads self) v in
  match retention_parallel q k v None need_weights with
  | None => None
  | Some (retention, weights) =>
      let batch_size := dim retention 0 in
      let retention := rearrange_bhnd_to_bn_hd retention in
      match F_dropout retention
              (MultiheadRetention.dropout (config self)) (training self) keep
      with
      | None => None
      | Some retention =>
          let retention :=
            group_norm (heads self) (group_norm_eps self) retention in
          let retention := rearrange_bn_hd_to_bn_hd batch_size retention in
          let gate := silu (linear (g_proj self) query) in
          let retention :=
            linear (out_proj self) (broadcast Rmult retention gate) in
          Some (retention, weights)
      end
  end.

Definition forward_recurrent (self : Layers) (query key value : Tensor R)
    (prev_state : option (Tensor R)) (keep : list nat -> bool)
    : option (Tensor R * Tensor R) :=
  let q := linear (q_proj self) query in
  let k := linear (k_proj self) key in
  let v := linear (v_proj self) value in
  let q := rearrange_b_hd_to_bhd (heads self) q in
  let k := rearrange_b_hd_to_bhd (heads self) k in
  let v := rearrange_b_hd_to_bhd (heads self) v in
  let '(retention, state) := retention_recurrent q k v prev_state None in
  match F_dropout retention
          (MultiheadRetention.dropout (config self)) (training self) keep
  with
  | None => None
  | Some retention =>
      let retention :=
        group_norm (heads self) (group_norm_eps self) retention in
      let retention := rearrange_bhd_to_b_hd retention in
      let gate := silu (linear (g_proj self) query) in
      let retention :=
        linear (out_proj self) (broadcast Rmult retention gate) in
      Some (retention, state)
  end.

Definition forward (self : Layers) (query key value : Tensor R)
    (need_weights : bool) (keep : list nat -> bool)
    : option (Tensor R * option (Tensor R)) :=
  forward_parallel self query key value need_weights keep.

(** The loop of the script at the end of the file: the module is stepped
    through the timesteps in [steps], each call fed the inputs at that
    position and the state the previous call returned.  [keep i] is the
    dropout draw of step [i]. *)
Fixpoint forward_recurrent_loop (self : Layers) (query key value : Tensor R)
    (keep : nat -> list nat -> bool) (steps : list nat)
    (prev_state : option (Tensor R)) : option (list (Tensor R)) :=
  match steps with
  | [] => Some []
  | i :: rest =>
      match forward_recurrent self (select1 i query) (select1 i key)
              (select1 i value) prev_state (keep i) with
      | None => None
      | Some (yr, state) =>
          match forward_recurrent_loop self query key value keep rest
                  (Some state) with
          | None => None
          | Some ys => Some (yr :: ys)
          end
      end
  end.

(** The state the caller's loop over the recurrent kernel is left with. *)
Fixpoint recurrent_final_state (query key value : Tensor R)
    (decay_gammas : option (Tensor R)) (steps : list nat)
    (prev_state : option (Tensor R)) : option (Tensor R) :=
  match steps with
  | [] => prev_state
  | i :: rest =>
      let '(_, state) :=
        retention_recurrent (select2 i query) (select2 i key)
                            (select2 i value) prev_state decay_gammas in
      recurrent_final_state query key value decay_gammas rest (Some state)
  end.

(** The distance the mask builder raises a coefficient to at query position
    [i] and key position [j]. *)
Definition filled_distance (i j : nat) : Distance :=
  if (i <? j)%nat then Inf else Steps (i - j).

(** A module as the constructor leaves it, for embedding dimension
    [D = H * Dh]: [H] heads of a dimension [Dh] that is a positive multiple
    of 8, and square projection layers.  (The normalisation of torch rejects
    an input with a single value per group, which such a head dimension
    rules out.) *)
Definition module_for (D H Dh : nat) (self : Layers) : Prop :=
  (Dh mod 8 = 0)%nat /\
  heads self = H /\ D = (H * Dh)%nat /\ (0 < H)%nat /\ (0 < Dh)%nat /\
  shape (weight (q_proj self)) = [D; D] /\
  shape (weight (k_proj self)) = [D; D] /\
  shape (weight (v_proj self)) = [D; D] /\
  shape (weight (g_proj self)) = [D; D] /\
  shape (weight (out_proj self)) = [D; D].

(** The dropout probability of the module is a probability. *)
Definition dropout_valid (self : Layers) : Prop :=
  0 <= MultiheadRetention.dropout (config self) <= 1.

(** The loop of the module and one parallel forward pass agree on a
    sequence of length [N]. *)
Definition forward_passes_agree (N : nat) (self : Layers)
    (query key value : Tensor R) (need_weights : bool)
    (keep : list nat -> bool) (keeps : nat -> list nat -> bool) : Prop :=
  exists yp weights ys,
    forward_parallel self query key value need_weights keep
      = Some (yp, weights) /\
    forward_recurrent_loop self query key value keeps (seq 0 N) None
      = Some ys /\
    length ys = N /\
    forall i, (i < N)%nat ->
      exists y, nth_error ys i = Some y /\ tensor_eq y (select1 i yp).

(** A module of one head of dimension 8, outside training, and a batch of
    one sequence of length 2 for it. *)
Definition example_linear : Linear :=
  mkLinear (full [8; 8]%nat (1 / 8)) (Some (full [8%nat] 0)).

Definition example_module : Layers :=
  mkLayers (MultiheadRetention.mk 8 1 0 true true)
           example_linear example_linear example_linear (1 / 1000000)
           example_linear example_linear false.

Definition example_batch : Tensor R :=
  mkTensor [1; 2; 8]%nat (ix3 0 (fun _ n c => INR n + INR c)).

(** * Properties *)

(** ** Indices and broadcasting *)

Lemma bdim_one_r (x : nat) : bdim x 1 = x.
Proof.
  unfold bdim. destruct (Nat.eqb_spec x 1); congruence.
Qed.

Lemma bdim_diag (x : nat) : bdim x x = x.
Proof.
  unfold bdim. destruct (x =? 1)%nat; reflexivity.
Qed.

Lemma bclamp_lt (d i : nat) : (i < d)%nat -> bclamp d i = i.
Proof.
  unfold bclamp. destruct (Nat.eqb_spec d 1); intros; lia.
Qed.

Lemma in_bounds_3 (ix : list nat) (a b c : nat) :
  in_bounds ix [a; b; c] ->
  exists i j k, ix = [i; j; k] /\ (i < a)%nat /\ (j < b)%nat /\ (k < c)%nat.
Proof.
  intros H.
  inversion H as [|i ? l1 ? Hi H1]; subst.
  inversion H1 as [|j ? l2 ? Hj H2]; subst.
  inversion H2 as [|k ? l3 ? Hk H3]; subst.
  inversion H3; subst. exists i, j, k. auto.
Qed.

Lemma in_bounds_4 (ix : list nat) (a b c d : nat) :
  in_bounds ix [a; b; c; d] ->
  exists i j k l, ix = [i; j; k; l] /\
    (i < a)%nat /\ (j < b)%nat /\ (k < c)%nat /\ (l < d)%nat.
Proof.
  intros H.
  inversion H as [|i ? l1 ? Hi H1]; subst.
  apply in_bounds_3 in H1. destruct H1 as (j & k & l & -> & ? & ? & ?).
  exists i, j, k, l. auto.
Qed.

Lemma indices_in_bounds (sh ix : list nat) :
  In ix (indices sh) -> in_bounds ix sh.
Proof.
  revert ix. induction sh as [|d rest IH]; simpl; intros ix Hin.
  - destruct Hin as [<-|[]]. constructor.
  - apply in_flat_map in Hin. destruct Hin as (i & Hi & Hin).
    apply in_map_iff in Hin. destruct Hin as (r & <- & Hr).
    apply in_seq in Hi. constructor; [lia | apply IH, Hr].
Qed.

(** ** Finite sums *)

Lemma Rsum_ext (n : nat) (f g : nat -> R) :
  (forall k, (k < n)%nat -> f k = g k) -> Rsum n f = Rsum n g.
Proof.
  induction n as [|n IH]; intros Hfg; simpl.
  - reflexivity.
  - rewrite IH by (intros; apply Hfg; lia). rewrite Hfg by lia. reflexivity.
Qed.

Lemma Rsum_zero (n : nat) (f : nat -> R) :
  (forall k, (k < n)%nat -> f k = 0) -> Rsum n f = 0.
Proof.
  induction n as [|n IH]; intros Hf; simpl.
  - reflexivity.
  - rewrite IH by (intros; apply Hf; lia). rewrite Hf by lia. lra.
Qed.

Lemma Rsum_scal (n : nat) (c : R) (f : nat -> R) :
  Rsum n (fun k => c * f k) = c * Rsum n f.
Proof.
  induction n as [|n IH]; simpl.
  - lra.
  - rewrite IH. lra.
Qed.

Lemma Rsum_plus (n : nat) (f g : nat -> R) :
  Rsum n (fun k => f k + g k) = Rsum n f + Rsum n g.
Proof.
  induction n as [|n IH]; simpl.
  - lra.
  - rewrite IH. lra.
Qed.

Lemma Rsum_swap (n m : nat) (f : nat -> nat -> R) :
  Rsum n (fun i => Rsum m (fun j => f i j)) =
  Rsum m (fun j => Rsum n (fun i => f i j)).
Proof.
  induction n as [|n IH]; simpl.
  - symmetry. apply Rsum_zero. reflexivity.
  - rewrite IH, <- Rsum_plus. reflexivity.
Qed.

(** A sum whose terms vanish from [n] on stops at [n]. *)
Lemma Rsum_prefix (n m : nat) (f : nat -> R) :
  (n <= m)%nat -> (forall k, (n <= k < m)%nat -> f k = 0) ->
  Rsum m f = Rsum n f.
Proof.
  intros Hnm. induction Hnm as [|m Hnm IH]; intros Hf.
  - reflexivity.
  - simpl. rewrite IH by (intros; apply Hf; lia).
    rewrite Hf by lia. lra.
Qed.

(** ** Decay schedule *)

Lemma exp_ln_32 : exp (ln (1 / 32)) = 1 / 32.
Proof. apply exp_ln. lra. Qed.

Lemma exp_ln_512 : exp (ln (1 / 512)) = 1 / 512.
Proof. apply exp_ln. lra. Qed.

Lemma ln_512_lt_ln_32 : ln (1 / 512) < ln (1 / 32).
Proof. apply ln_increasing; lra. Qed.

Lemma decay_gammas_shape (H : nat) : shape (_build_decay_gammas H) = [H].
Proof. reflexivity. Qed.

Lemma decay_gammas_get (H h : nat) :
  get (_build_decay_gammas H) [h] =
  1 - exp (if (H =? 1)%nat then ln (1 / 32)
           else ln (1 / 32) +
                INR h * ((ln (1 / 512) - ln (1 / 32)) / INR (H - 1))).
Proof.
  unfold _build_decay_gammas, linspace, tmap. simpl.
  destruct (H =? 1)%nat; reflexivity.
Qed.

(** Every exponent of the schedule is at most [log(1/32)]. *)
Lemma linspace_exponent_le (H h : nat) :
  (if (H =? 1)%nat then ln (1 / 32)
   else ln (1 / 32) + INR h * ((ln (1 / 512) - ln (1 / 32)) / INR (H - 1)))
  <= ln (1 / 32).
Proof.
  destruct (Nat.eqb_spec H 1) as [|Hne]; [lra|].
  assert (Hh : 0 <= INR h) by apply pos_INR.
  assert (Hd : 0 <= / INR (H - 1)).
  { destruct (Nat.eq_dec (H - 1) 0) as [->|Hpos].
    - simpl. rewrite Rinv_0. lra.
    - left. apply Rinv_0_lt_compat. apply lt_0_INR. lia. }
  pose proof ln_512_lt_ln_32 as Hlt.
  unfold Rdiv.
  assert (Hneg : (ln (1 / 512) - ln (1 / 32)) * / INR (H - 1) <= 0).
  { nra. }
  nra.
Qed.

Lemma decay_gammas_bounds (H h : nat) :
  31 / 32 <= get (_build_decay_gammas H) [h] < 1.
Proof.
  rewrite decay_gammas_get.
  pose proof (linspace_exponent_le H h) as Hle.
  set (x := if (H =? 1)%nat then _ else _) in *.
  pose proof (exp_pos x) as Hpos.
  assert (Hexp : exp x <= 1 / 32).
  { rewrite <- exp_ln_32. destruct Hle as [Hlt | Heq]; [|rewrite Heq; lra].
    left. apply exp_increasing, Hlt. }
  lra.
Qed.

(** ** Decay mask *)

Lemma float_pow_inf_small (g : R) : -1 < g < 1 -> float_pow g Inf = Some 0.
Proof.
  intros Hg. simpl. destruct (Rlt_dec (Rabs g) 1) as [|Hn]; [reflexivity|].
  exfalso. apply Hn. apply Rabs_def1; lra.
Qed.

(** For coefficients of absolute value below 1 the mask is a real tensor of
    shape [(H, N, M)] whose entries are the ones the specification gives. *)
Lemma decay_mask_entries (N M H : nat) (g : Tensor R) :
  shape g = [H] ->
  (forall h, (h < H)%nat -> -1 < get g [h] < 1) ->
  exists D, _build_decay_mask N M g = Some D /\
    shape D = [H; N; M] /\
    forall h i j, (h < H)%nat -> (i < N)%nat -> (j < M)%nat ->
      get D [h; i; j] = decay_mask_spec (get g [h]) i j.
Proof.
  intros Hsh Hg.
  unfold _build_decay_mask, finite_tensor.
  set (P := broadcast float_pow _ _).
  assert (HshP : shape P = [H; N; M]).
  { subst P. simpl. rewrite Hsh. simpl. rewrite !bdim_one_r. reflexivity. }
  assert (HP : forall h i j, (h < H)%nat -> (i < N)%nat -> (j < M)%nat ->
            get P [h; i; j] = Some (decay_mask_spec (get g [h]) i j)).
  { intros h i j Hh Hi Hj. subst P. simpl. rewrite Hsh. simpl.
    rewrite !bdim_one_r. rewrite !bclamp_lt by (rewrite ?bclamp_lt; assumption).
    unfold decay_mask_spec.
    destruct (Z.leb_spec 1 (Z.of_nat j - Z.of_nat i)) as [Hji|Hji];
      destruct (Nat.leb_spec j i) as [Hle|Hlt]; try lia.
    - apply float_pow_inf_small, Hg, Hh.
    - simpl. do 2 f_equal. lia. }
  clearbody P.
  assert (Hall : forallb (fun ix => is_finite (get P ix)) (indices (shape P))
                 = true).
  { apply forallb_forall. intros ix Hin. apply indices_in_bounds in Hin.
    rewrite HshP in Hin. apply in_bounds_3 in Hin.
    destruct Hin as (h & i & j & -> & Hh & Hi & Hj).
    rewrite HP by assumption. reflexivity. }
  rewrite Hall. eexists. split; [reflexivity|]. split; [exact HshP|].
  intros h i j Hh Hi Hj. simpl. rewrite HP by assumption. reflexivity.
Qed.

(** At a coefficient of absolute value 1 the filled entries are 1, not 0:
    the mask no longer hides the future.  Beyond 1 they are infinite. *)
Example decay_mask_at_one :
  exists D, _build_decay_mask 1 2 (full [1%nat] 1) = Some D /\
            get D [0; 0; 1]%nat = 1.
Proof.
  assert (Hpow : float_pow 1 Inf = Some 1).
  { simpl. rewrite Rabs_R1.
    destruct (Rlt_dec 1 1) as [Hlt|_]; [lra|].
    destruct (Req_dec_T 1 1) as [_|Hne]; [reflexivity | contradiction]. }
  unfold _build_decay_mask, finite_tensor.
  cbn -[float_pow]. rewrite Hpow. cbn -[float_pow].
  eexists. split; [reflexivity|]. cbn -[float_pow]. rewrite Hpow. reflexivity.
Qed.

Example decay_mask_beyond_one :
  _build_decay_mask 1 2 (full [1%nat] 2) = None.
Proof.
  assert (Hpow : float_pow 2 Inf = None).
  { simpl. rewrite Rabs_pos_eq by lra.
    destruct (Rlt_dec 2 1) as [Hlt|_]; [lra|].
    destruct (Req_dec_T 2 1) as [Heq|_]; [lra | reflexivity]. }
  unfold _build_decay_mask, finite_tensor.
  cbn -[float_pow]. rewrite Hpow. rewrite andb_false_r. reflexivity.
Qed.

(** ** The kernels, elementwise *)

(** Normalises the shapes of the tensors at hand. *)
Ltac shapes :=
  repeat first
    [ progress simpl
    | progress unfold dim
    | match goal with H : shape _ = _ |- _ => rewrite H end ].

Lemma gammas_or_default_shape (H : nat) (g : option (Tensor R))
    (q : Tensor R) :
  gammas_for H g -> dim q 1 = H -> shape (gammas_or_default g q) = [H].
Proof.
  intros Hg Hq. destruct g as [g|]; unfold gammas_or_default.
  - exact Hg.
  - rewrite Hq. reflexivity.
Qed.

Lemma gammas_or_default_valid (H : nat) (g : option (Tensor R))
    (q : Tensor R) :
  valid_gammas H g -> dim q 1 = H ->
  shape (gammas_or_default g q) = [H] /\
  forall h, (h < H)%nat -> -1 < get (gammas_or_default g q) [h] < 1.
Proof.
  intros Hg Hq. destruct g as [g|]; unfold gammas_or_default.
  - exact Hg.
  - rewrite Hq. split; [reflexivity|].
    intros h _. pose proof (decay_gammas_bounds H h). lra.
Qed.

Lemma valid_gammas_for (H : nat) (g : option (Tensor R)) :
  valid_gammas H g -> gammas_for H g.
Proof.
  destruct g as [g|]; simpl; [intros [Hs _]; exact Hs | trivial].
Qed.

Lemma retention_parallel_spec (B H N S Dh Dv : nat)
    (q k v : Tensor R) (g : option (Tensor R)) :
  shape q = [B; H; N; Dh] -> shape k = [B; H; S; Dh] ->
  shape v = [B; H; S; Dv] -> valid_gammas H g ->
  exists out w,
    (forall need_weights,
       retention_parallel q k v g need_weights =
       Some (out, if need_weights then Some w else None)) /\
    shape out = [B; H; N; Dv] /\ shape w = [B; H; N; S] /\
    (forall b h i j,
       (b < B)%nat -> (h < H)%nat -> (i < N)%nat -> (j < S)%nat ->
       get w [b; h; i; j] =
       Rsum Dh (fun d => get q [b; h; i; d] * get k [b; h; j; d]) *
       decay_mask_spec (get (gammas_or_default g q) [h]) i j) /\
    (forall b h i d,
       (b < B)%nat -> (h < H)%nat -> (i < N)%nat -> (d < Dv)%nat ->
       get out [b; h; i; d] =
       Rsum S (fun j => get w [b; h; i; j] * get v [b; h; j; d])).
Proof.
  intros Hq Hk Hv Hg.
  destruct (gammas_or_default_valid H g q Hg) as [Hgs Hgr].
  { unfold dim. rewrite Hq. reflexivity. }
  destruct (decay_mask_entries N S H _ Hgs Hgr) as (D & HD & HDs & HDe).
  unfold retention_parallel, dim. rewrite Hq, Hk. simpl nth. rewrite HD.
  eexists. eexists. split; [|split; [|split; [|split]]].
  - intros [|]; reflexivity.
  - shapes. rewrite !bdim_diag, bdim_one_r. reflexivity.
  - shapes. rewrite !bdim_diag, bdim_one_r. reflexivity.
  - intros b h i j Hb Hh Hi Hj. shapes.
    rewrite !bclamp_lt by assumption. rewrite HDe by assumption. reflexivity.
  - intros b h i d Hb Hh Hi Hd. shapes.
    rewrite !bdim_diag. reflexivity.
Qed.

Lemma retention_recurrent_spec (B H Dh Dv : nat) (q k v : Tensor R)
    (prev : option (Tensor R)) (g : option (Tensor R)) :
  shape q = [B; H; Dh] -> shape k = [B; H; Dh] -> shape v = [B; H; Dv] ->
  state_for [B; H; Dh; Dv] prev -> gammas_for H g ->
  let out := fst (retention_recurrent q k v prev g) in
  let st := snd (retention_recurrent q k v prev g) in
  shape out = [B; H; Dv] /\ shape st = [B; H; Dh; Dv] /\
  (forall b h d m,
     (b < B)%nat -> (h < H)%nat -> (d < Dh)%nat -> (m < Dv)%nat ->
     get st [b; h; d; m] =
     match prev with
     | Some p => get k [b; h; d] * get v [b; h; m] +
                 get (gammas_or_default g q) [h] * get p [b; h; d; m]
     | None => get k [b; h; d] * get v [b; h; m]
     end) /\
  (forall b h m, (b < B)%nat -> (h < H)%nat -> (m < Dv)%nat ->
     get out [b; h; m] =
     Rsum Dh (fun d => get q [b; h; d] * get st [b; h; d; m])).
Proof.
  intros Hq Hk Hv Hp Hg.
  assert (Hgs : shape (gammas_or_default g q) = [H]).
  { apply gammas_or_default_shape; [exact Hg|].
    unfold dim. rewrite Hq. reflexivity. }
  unfold retention_recurrent. destruct prev as [p|]; simpl in Hp.
  - split; [|split; [|split]].
    + shapes. rewrite ?bdim_one_r, ?bdim_diag. reflexivity.
    + shapes. rewrite ?bdim_one_r, ?bdim_diag. reflexivity.
    + intros b h d m Hb Hh Hd Hm. shapes.
      rewrite ?bdim_one_r, ?bdim_diag. rewrite !bclamp_lt by assumption. lra.
    + intros b h m Hb Hh Hm. shapes. reflexivity.
  - split; [|split; [|split]].
    + shapes. reflexivity.
    + shapes. reflexivity.
    + intros b h d m Hb Hh Hd Hm. reflexivity.
    + intros b h m Hb Hh Hm. shapes. reflexivity.
Qed.

(** ** Equivalence of the two kernels *)

Lemma in_bounds_4_intro (i j k l a b c d : nat) :
  (i < a)%nat -> (j < b)%nat -> (k < c)%nat -> (l < d)%nat ->
  in_bounds [i; j; k; l] [a; b; c; d].
Proof. intros. repeat constructor; assumption. Qed.

Lemma in_bounds_4_elim (i j k l a b c d : nat) :
  in_bounds [i; j; k; l] [a; b; c; d] ->
  (i < a)%nat /\ (j < b)%nat /\ (k < c)%nat /\ (l < d)%nat.
Proof.
  intros H. apply in_bounds_4 in H.
  destruct H as (? & ? & ? & ? & [= <- <- <- <-] & ?). assumption.
Qed.

Lemma decayed_sum_step (gamma : R) (kv : nat -> R) (t : nat) :
  decayed_sum gamma kv (S t) = kv t + gamma * decayed_sum gamma kv t.
Proof.
  unfold decayed_sum. cbn [Rsum].
  replace (S t - 1 - t)%nat with 0%nat by lia.
  rewrite <- Rsum_scal.
  rewrite (Rsum_ext t _ (fun k => gamma * (gamma ^ (t - 1 - k) * kv k))).
  - simpl. lra.
  - intros j Hj. replace (S t - 1 - j)%nat with (S (t - 1 - j)) by lia.
    simpl. lra.
Qed.

(** The weight the mask gives to timestep [j] at timestep [i] is the decay
    the state has accumulated on it by then. *)
Lemma retention_telescope (gamma : R) (Dh T i : nat)
    (Q : nat -> R) (K : nat -> nat -> R) (V : nat -> R) :
  (i < T)%nat ->
  Rsum Dh (fun d => Q d * decayed_sum gamma (fun j => K j d * V j) (S i)) =
  Rsum T (fun j => Rsum Dh (fun d => Q d * K j d) *
                   decay_mask_spec gamma i j * V j).
Proof.
  intros Hi.
  rewrite (Rsum_prefix (S i) T); [|lia|].
  2:{ intros j Hj. unfold decay_mask_spec.
      destruct (Nat.leb_spec j i); [lia | lra]. }
  unfold decayed_sum.
  rewrite (Rsum_ext Dh _
             (fun d => Rsum (S i) (fun j =>
                Q d * (gamma ^ (S i - 1 - j) * (K j d * V j)))))
    by (intros d _; symmetry; apply Rsum_scal).
  rewrite Rsum_swap. apply Rsum_ext. intros j Hj.
  unfold decay_mask_spec. destruct (Nat.leb_spec j i); [|lia].
  replace (S i - 1 - j)%nat with (i - j)%nat by lia.
  rewrite (Rsum_ext Dh _
             (fun d => (gamma ^ (i - j) * V j) * (Q d * K j d)))
    by (intros; lra).
  rewrite Rsum_scal. lra.
Qed.

Section Equivalence.

Variables B H T Dh Dv : nat.
Variables query key value : Tensor R.
Variable decay_gammas : option (Tensor R).
Hypothesis Hq : shape query = [B; H; T; Dh].
Hypothesis Hk : shape key = [B; H; T; Dh].
Hypothesis Hv : shape value = [B; H; T; Dv].
Hypothesis Hg : valid_gammas H decay_gammas.

Local Abbreviation gammas := (gammas_or_default decay_gammas query).
Local Abbreviation invariant :=
  (state_at [B; H; Dh; Dv] key value gammas).

Lemma recurrent_step_state (t : nat) (prev : option (Tensor R)) :
  invariant t prev ->
  invariant (S t)
    (Some (snd (retention_recurrent (select2 t query) (select2 t key)
                  (select2 t value) prev decay_gammas))).
Proof.
  intros Hprev.
  destruct (retention_recurrent_spec B H Dh Dv (select2 t query)
              (select2 t key) (select2 t value) prev decay_gammas)
    as (_ & Hs & Hst & _).
  - shapes. reflexivity.
  - shapes. reflexivity.
  - shapes. reflexivity.
  - destruct prev as [p|]; [exact (proj1 Hprev) | exact I].
  - apply valid_gammas_for, Hg.
  - split; [exact Hs|].
    intros b h d m Hin.
    pose proof (in_bounds_4_elim _ _ _ _ _ _ _ _ Hin) as (Hb & Hh & Hd & Hm).
    rewrite Hst by assumption.
    unfold accumulated_state. rewrite decayed_sum_step.
    destruct prev as [p|]; simpl in Hprev.
    + destruct Hprev as [_ Hp]. rewrite (Hp _ _ _ _ Hin). reflexivity.
    + subst t. unfold decayed_sum. simpl. lra.
Qed.

Lemma recurrent_step_output (t : nat) (prev : option (Tensor R)) :
  invariant t prev ->
  let y := fst (retention_recurrent (select2 t query) (select2 t key)
                  (select2 t value) prev decay_gammas) in
  shape y = [B; H; Dv] /\
  forall b h m, (b < B)%nat -> (h < H)%nat -> (m < Dv)%nat ->
    get y [b; h; m] =
    Rsum Dh (fun d => get query [b; h; t; d] *
                      accumulated_state key value gammas (S t) b h d m).
Proof.
  intros Hprev.
  pose proof (recurrent_step_state t prev Hprev) as [_ Hnext].
  destruct (retention_recurrent_spec B H Dh Dv (select2 t query)
              (select2 t key) (select2 t value) prev decay_gammas)
    as (Hs & _ & _ & Hout).
  - shapes. reflexivity.
  - shapes. reflexivity.
  - shapes. reflexivity.
  - destruct prev as [p|]; [exact (proj1 Hprev) | exact I].
  - apply valid_gammas_for, Hg.
  - split; [exact Hs|].
    intros b h m Hb Hh Hm. rewrite Hout by assumption.
    apply Rsum_ext. intros d Hd.
    rewrite Hnext by (apply in_bounds_4_intro; assumption). reflexivity.
Qed.

Lemma recurrent_loop_outputs (n : nat) :
  forall a prev, invariant a prev ->
  forall i, (i < n)%nat ->
  exists y,
    nth_error (recurrent_loop query key value decay_gammas (seq a n) prev) i
      = Some y /\
    shape y = [B; H; Dv] /\
    forall b h m, (b < B)%nat -> (h < H)%nat -> (m < Dv)%nat ->
      get y [b; h; m] =
      Rsum Dh (fun d =>
        get query [b; h; (a + i)%nat; d] *
        accumulated_state key value gammas (S (a + i)) b h d m).
Proof.
  induction n as [|n IH]; intros a prev Hprev i Hi; [lia|].
  cbn [seq recurrent_loop].
  destruct (retention_recurrent _ _ _ prev decay_gammas) as [yr st] eqn:Hstep.
  destruct i as [|i].
  - exists yr. split; [reflexivity|].
    pose proof (recurrent_step_output a prev Hprev) as Hy.
    rewrite Hstep in Hy. rewrite Nat.add_0_r. exact Hy.
  - pose proof (recurrent_step_state a prev Hprev) as Hnext.
    rewrite Hstep in Hnext.
    destruct (IH (S a) (Some st) Hnext i) as (y & Hy & Hrest); [lia|].
    exists y. split; [exact Hy|].
    replace (a + S i)%nat with (S a + i)%nat by lia. exact Hrest.
Qed.

Lemma recurrent_loop_length (steps : list nat) :
  forall prev,
  length (recurrent_loop query key value decay_gammas steps prev) =
  length steps.
Proof.
  induction steps as [|i rest IH]; intros prev; cbn [recurrent_loop].
  - reflexivity.
  - destruct (retention_recurrent _ _ _ prev decay_gammas) as [yr st].
    simpl. rewrite IH. reflexivity.
Qed.

(** Timestep [i] of the loop is row [i] of the parallel output. *)
Lemma recurrent_matches_parallel :
  exists out w,
    (forall need_weights,
       retention_parallel query key value decay_gammas need_weights =
       Some (out, if need_weights then Some w else None)) /\
    forall i, (i < T)%nat ->
    exists y,
      nth_error (recurrent_loop query key value decay_gammas (seq 0 T) None) i
        = Some y /\
      tensor_eq y (select2 i out).
Proof.
  destruct (retention_parallel_spec B H T T Dh Dv query key value
              decay_gammas Hq Hk Hv Hg)
    as (out & w & Hpar & Hso & Hsw & Hw & Hout).
  exists out, w. split; [exact Hpar|].
  intros i Hi.
  destruct (recurrent_loop_outputs T 0 None eq_refl i Hi)
    as (y & Hy & Hsy & Hval).
  exists y. split; [exact Hy|]. split.
  - shapes. reflexivity.
  - intros ix Hix. rewrite Hsy in Hix. apply in_bounds_3 in Hix.
    destruct Hix as (b & h & m & -> & Hb & Hh & Hm).
    rewrite Hval by assumption. cbn [select2 get Nat.add].
    rewrite Hout by assumption.
    unfold accumulated_state. rewrite (retention_telescope _ Dh T i) by exact Hi.
    apply Rsum_ext. intros j Hj. rewrite Hw by assumption. reflexivity.
Qed.

End Equivalence.

(** Position 0 of the parallel output only sees position 0. *)
Lemma parallel_first_position (B H N S Dh Dv : nat)
    (q k v : Tensor R) (g : option (Tensor R)) :
  shape q = [B; H; N; Dh] -> shape k = [B; H; S; Dh] ->
  shape v = [B; H; S; Dv] -> valid_gammas H g ->
  (0 < N)%nat -> (0 < S)%nat ->
  exists out,
    (forall need_weights, exists w,
       retention_parallel q k v g need_weights = Some (out, w)) /\
    shape out = [B; H; N; Dv] /\
    forall b h d, (b < B)%nat -> (h < H)%nat -> (d < Dv)%nat ->
      get out [b; h; 0%nat; d] =
      Rsum Dh (fun e => get q [b; h; 0%nat; e] * get k [b; h; 0%nat; e]) *
      get v [b; h; 0%nat; d].
Proof.
  intros Hq Hk Hv Hg HN HS.
  destruct (retention_parallel_spec B H N S Dh Dv q k v g Hq Hk Hv Hg)
    as (out & w & Hpar & Hso & _ & Hw & Hout).
  exists out. split; [|split; [exact Hso|]].
  - intros nw. eexists. apply Hpar.
  - intros b h d Hb Hh Hd. rewrite Hout by assumption.
    rewrite (Rsum_prefix 1 S); [|lia|].
    + simpl. rewrite Hw by assumption. unfold decay_mask_spec. simpl. lra.
    + intros j Hj. rewrite Hw by (try assumption; lia).
      unfold decay_mask_spec. destruct (Nat.leb_spec j 0); [lia | lra].
Qed.

(** ** The recurrent kernel over the object store *)

Lemma nth_error_snoc (st : Store.store) (t : Tensor R) :
  nth_error (st ++ [t]) (length st) = Some t.
Proof.
  rewrite nth_error_app2 by lia. rewrite Nat.sub_diag. reflexivity.
Qed.

Lemma nth_error_extend (st : Store.store) (t x : Tensor R) (r : Store.ref) :
  nth_error st r = Some x -> nth_error (st ++ [t]) r = Some x.
Proof.
  intros H. rewrite nth_error_app1; [exact H|].
  apply nth_error_Some. congruence.
Qed.

Lemma preserves_refl (st : Store.store) : Store.preserves st st.
Proof. intros r t H. exact H. Qed.

Lemma preserves_trans (a b c : Store.store) :
  Store.preserves a b -> Store.preserves b c -> Store.preserves a c.
Proof. intros Hab Hbc r t H. apply Hbc, Hab, H. Qed.

Lemma preserves_snoc (st : Store.store) (t : Tensor R) :
  Store.preserves st (st ++ [t]).
Proof. intros r x H. apply nth_error_extend, H. Qed.

Lemma op1_run (f : Tensor R -> Tensor R) (a : Store.ref) (ta : Tensor R)
    (st : Store.store) :
  nth_error st a = Some ta ->
  Store.op1 f a st = Some (length st, st ++ [f ta]).
Proof.
  intros Ha. unfold Store.op1, Store.bind, Store.load, Store.new.
  rewrite Ha. reflexivity.
Qed.

Lemma op2_run (f : Tensor R -> Tensor R -> Tensor R) (a b : Store.ref)
    (ta tb : Tensor R) (st : Store.store) :
  nth_error st a = Some ta -> nth_error st b = Some tb ->
  Store.op2 f a b st = Some (length st, st ++ [f ta tb]).
Proof.
  intros Ha Hb. unfold Store.op2, Store.bind, Store.load, Store.new.
  rewrite Ha, Hb. reflexivity.
Qed.

(** An in-place operation, by contrast, does not preserve the store. *)
Example overwrite_changes_store :
  let st := [full [1%nat] 0] in
  exists st', Store.overwrite 0%nat (full [1%nat] 1) st = Some (tt, st') /\
              ~ Store.preserves st st'.
Proof.
  eexists. split; [reflexivity|].
  intros Hpres. specialize (Hpres 0%nat _ eq_refl). simpl in Hpres.
  injection Hpres as Heq.
  assert (H01 : get (full [1%nat] 1) [] = get (full [1%nat] 0) [])
    by (apply (f_equal (fun f => f (@nil nat))) in Heq; exact Heq).
  simpl in H01. lra.
Qed.

(** A call on live references returns; it only allocates, and the two
    tensors it returns are new objects holding what the kernel computes from
    the values of its arguments. *)
Lemma store_recurrent_run (st : Store.store) (q k v : Store.ref)
    (prev g : option Store.ref) (tq tk tv : Tensor R)
    (tprev tg : option (Tensor R)) :
  nth_error st q = Some tq -> nth_error st k = Some tk ->
  nth_error st v = Some tv ->
  Store.holds st prev tprev -> Store.holds st g tg ->
  exists r s st',
    Store.retention_recurrent q k v prev g st = Some ((r, s), st') /\
    Store.preserves st st' /\
    (length st <= r)%nat /\ (length st <= s)%nat /\
    nth_error st' r = Some (fst (retention_recurrent tq tk tv tprev tg)) /\
    nth_error st' s = Some (snd (retention_recurrent tq tk tv tprev tg)).
Proof.
  intros Hq Hk Hv Hprev Hg.
  unfold Store.retention_recurrent, retention_recurrent.
  assert (Hgam : exists gr st1,
            (match g with
             | Some g0 => Store.ret g0
             | None => Store.op1 (fun t => _build_decay_gammas (dim t 1)) q
             end) st = Some (gr, st1) /\
            Store.preserves st st1 /\ (length st <= length st1)%nat /\
            nth_error st1 gr = Some (gammas_or_default tg tq)).
  { destruct g as [gr|], tg as [t|]; simpl in Hg; try contradiction.
    - exists gr, st. repeat split; auto using preserves_refl.
    - exists (length st), (st ++ [_build_decay_gammas (dim tq 1)]).
      rewrite (op1_run _ q tq st Hq). repeat split.
      + apply preserves_snoc.
      + rewrite length_app. simpl. lia.
      + apply nth_error_snoc. }
  destruct Hgam as (gr & st1 & Hrun1 & Hp1 & Hl1 & Hgr).
  unfold Store.bind at 1. rewrite Hrun1.
  unfold Store.bind at 1.
  rewrite (op2_run _ k v tk tv st1) by (apply Hp1; assumption).
  set (s0 := einsum_bhd_bhm_bhdm tk tv).
  set (st2 := st1 ++ [s0]).
  assert (Hp2 : Store.preserves st st2).
  { eapply preserves_trans; [exact Hp1 | apply preserves_snoc]. }
  assert (Hl2 : length st2 = S (length st1)).
  { subst st2. rewrite length_app. simpl. lia. }
  destruct prev as [p|], tprev as [tp|]; simpl in Hprev; try contradiction.
  - unfold Store.bind at 1. unfold Store.bind at 1.
    rewrite (op1_run _ gr _ st2 (nth_error_extend _ _ _ _ Hgr)).
    unfold Store.bind at 1.
    erewrite op2_run;
      [| apply nth_error_extend, Hp2, Hprev | apply nth_error_snoc ].
    erewrite op2_run;
      [| do 2 apply nth_error_extend; apply nth_error_snoc
       | apply nth_error_snoc ].
    unfold Store.bind at 1.
    erewrite op2_run;
      [| do 3 apply nth_error_extend; apply Hp2, Hq
       | apply nth_error_snoc ].
    unfold Store.ret.
    eexists. eexists. eexists. split; [reflexivity|].
    repeat split.
    + intros r t Hr. do 4 apply nth_error_extend. apply Hp2, Hr.
    + rewrite !length_app. simpl. lia.
    + rewrite !length_app. simpl. lia.
    + apply nth_error_snoc.
    + apply nth_error_extend, nth_error_snoc.
  - unfold Store.bind at 1. unfold Store.ret at 1.
    unfold Store.bind at 1.
    erewrite op2_run; [| apply Hp2, Hq | apply nth_error_snoc ].
    unfold Store.ret.
    eexists. eexists. eexists. split; [reflexivity|].
    repeat split.
    + intros r t Hr. apply nth_error_extend, Hp2, Hr.
    + rewrite Hl2. lia.
    + lia.
    + apply nth_error_snoc.
    + apply nth_error_extend, nth_error_snoc.
Qed.

(** ** Construction of the module *)

Lemma init_batch_first (e n : Z) (dr : R) (b : bool) :
  MultiheadRetention.__init__ e n dr b true =
  if (n =? 0)%Z then MultiheadRetention.Raise MultiheadRetention.ZeroDivisionError
  else if negb (e mod n =? 0)%Z
       then MultiheadRetention.Raise MultiheadRetention.ValueError
  else if negb ((e / n) mod 8 =? 0)%Z
       then MultiheadRetention.Raise MultiheadRetention.ValueError
  else if negb (e / n <=? 128)%Z
       then MultiheadRetention.Raise MultiheadRetention.ValueError
  else if (e <? 0)%Z
       then MultiheadRetention.Raise MultiheadRetention.RuntimeError
  else if (e =? 0)%Z
       then MultiheadRetention.Raise MultiheadRetention.ZeroDivisionError
  else MultiheadRetention.Ok (MultiheadRetention.mk e n dr b true).
Proof.
  unfold MultiheadRetention.__init__, MultiheadRetention.py_mod,
    MultiheadRetention.py_floordiv, MultiheadRetention._reset_parameters,
    MultiheadRetention.nn_Linear, MultiheadRetention.nn_GroupNorm,
    MultiheadRetention.xavier_normal_, MultiheadRetention.py_mod.
  simpl.
  destruct (Z.eqb_spec n 0) as [Hn|Hn]; [reflexivity|]. simpl.
  destruct (e mod n =? 0)%Z; [|reflexivity]. simpl.
  destruct ((e / n) mod 8 =? 0)%Z; [|reflexivity]. simpl.
  destruct (e / n <=? 128)%Z; [|reflexivity]. simpl.
  rewrite orb_diag.
  destruct (Z.ltb_spec e 0) as [Hneg|Hnn]; [reflexivity|]. simpl.
  rewrite Z.mod_same by exact Hn. simpl.
  destruct (Z.eqb_spec e 0) as [He|He].
  - subst e. reflexivity.
  - destruct (Z.eqb_spec (e + e) 0) as [He2|He2]; [lia|]. reflexivity.
Qed.

(** * The claims of the specification *)

(** C1.  Kernel equivalence: for every batch size, head count, head
    dimensions and sequence length [T], calling the recurrent kernel [T]
    times in temporal order, from the absent state and feeding each returned
    state to the next call, yields at every timestep [i] the row [i] of the
    output of one call of the parallel kernel on the whole sequence with the
    same decay coefficients (the default schedule, or one coefficient per
    head of absolute value below 1). *)
Theorem recurrent_equals_parallel (B H T Dh Dv : nat)
    (query key value : Tensor R) (decay_gammas : option (Tensor R)) :
  shape query = [B; H; T; Dh] ->
  shape key = [B; H; T; Dh] ->
  shape value = [B; H; T; Dv] ->
  valid_gammas H decay_gammas ->
  kernels_agree T query key value decay_gammas.
Proof.
  intros Hq Hk Hv Hg. unfold kernels_agree. split.
  - rewrite recurrent_loop_length. apply length_seq.
  - destruct (recurrent_matches_parallel B H T Dh Dv query key value
                decay_gammas Hq Hk Hv Hg) as (out & w & Hpar & Hrows).
    exists out. split; [|exact Hrows].
    intros nw. eexists. apply Hpar.
Qed.

Lemma recurrent_equals_parallel_witness :
  let x := mkTensor [1; 2; 3; 2]%nat
             (ix4 0 (fun _ h n d => INR h + INR n - INR d)) in
  (shape x = [1; 2; 3; 2]%nat /\ valid_gammas 2 None) /\
  kernels_agree 3 x x x None.
Proof.
  split; [split; [reflexivity | exact I]|].
  apply (recurrent_equals_parallel 1 2 3 2 2); solve [reflexivity | exact I].
Defined.

(** C2.  Decay mask: for query length [N], key length [M] and [H] decay
    coefficients in (0,1), the mask has shape [(H, N, M)]; its entry at head
    [h], query position [i] and key position [j] is the coefficient of the
    head to the power [i - j] when [j <= i], so 1 on the diagonal, and 0 when
    [j > i]. *)
Theorem decay_mask_correct (N M H : nat) (g : Tensor R) :
  shape g = [H] ->
  (forall h, (h < H)%nat -> 0 < get g [h] < 1) ->
  exists D,
    _build_decay_mask N M g = Some D /\
    shape D = [H; N; M] /\
    forall h i j, (h < H)%nat -> (i < N)%nat -> (j < M)%nat ->
      ((j <= i)%nat -> get D [h; i; j] = get g [h] ^ (i - j)) /\
      (j = i -> get D [h; i; j] = 1) /\
      ((j > i)%nat -> get D [h; i; j] = 0).
Proof.
  intros Hs Hg.
  destruct (decay_mask_entries N M H g Hs) as (D & HD & HsD & He).
  { intros h Hh. specialize (Hg h Hh). lra. }
  exists D. split; [exact HD|]. split; [exact HsD|].
  intros h i j Hh Hi Hj. rewrite He by assumption. unfold decay_mask_spec.
  repeat split.
  - intros Hle. destruct (Nat.leb_spec j i); [reflexivity | lia].
  - intros ->. rewrite Nat.leb_refl, Nat.sub_diag. reflexivity.
  - intros Hgt. destruct (Nat.leb_spec j i); [lia | reflexivity].
Qed.

Lemma decay_mask_correct_witness :
  let g := mkTensor [2%nat] (ix1 0 (fun h => / (2 + INR h))) in
  (shape g = [2%nat] /\
   forall h, (h < 2)%nat -> 0 < get g [h] < 1) /\
  exists D,
    _build_decay_mask 3 4 g = Some D /\
    shape D = [2; 3; 4]%nat /\
    forall h i j, (h < 2)%nat -> (i < 3)%nat -> (j < 4)%nat ->
      ((j <= i)%nat -> get D [h; i; j] = get g [h] ^ (i - j)) /\
      (j = i -> get D [h; i; j] = 1) /\
      ((j > i)%nat -> get D [h; i; j] = 0).
Proof.
  assert (Hg : forall h, (h < 2)%nat ->
            0 < / (2 + INR h) < 1).
  { intros h Hh. assert (0 <= INR h) by apply pos_INR. split.
    - apply Rinv_0_lt_compat. lra.
    - rewrite <- Rinv_1. apply Rinv_lt_contravar; lra. }
  split; [split; [reflexivity | exact Hg]|].
  apply decay_mask_correct; [reflexivity | exact Hg].
Defined.

(** C3.  Recurrent kernel: for a single timestep of shapes [(B,H,Dh)],
    [(B,H,Dh)], [(B,H,Dv)], the returned state is [key (x) value] plus the
    previous state scaled by the coefficient of its head when a previous
    state is supplied, and exactly the outer product [key (x) value] when it
    is absent; the returned output is
    [output[b,h,m] = sum_d query[b,h,d] * state[b,h,d,m]]. *)
Theorem recurrent_kernel_definition (B H Dh Dv : nat)
    (query key value : Tensor R) (prev_state : option (Tensor R))
    (decay_gammas : option (Tensor R)) :
  shape query = [B; H; Dh] ->
  shape key = [B; H; Dh] ->
  shape value = [B; H; Dv] ->
  state_for [B; H; Dh; Dv] prev_state ->
  gammas_for H decay_gammas ->
  let output :=
    fst (retention_recurrent query key value prev_state decay_gammas) in
  let state :=
    snd (retention_recurrent query key value prev_state decay_gammas) in
  let gammas := gammas_or_default decay_gammas query in
  shape output = [B; H; Dv] /\
  shape state = [B; H; Dh; Dv] /\
  (forall b h d m,
     (b < B)%nat -> (h < H)%nat -> (d < Dh)%nat -> (m < Dv)%nat ->
     get state [b; h; d; m] =
     match prev_state with
     | Some prev => get key [b; h; d] * get value [b; h; m] +
                    get gammas [h] * get prev [b; h; d; m]
     | None => get key [b; h; d] * get value [b; h; m]
     end) /\
  (prev_state = None -> state = einsum_bhd_bhm_bhdm key value) /\
  (forall b h m, (b < B)%nat -> (h < H)%nat -> (m < Dv)%nat ->
     get output [b; h; m] =
     Rsum Dh (fun d => get query [b; h; d] * get state [b; h; d; m])).
Proof.
  intros Hq Hk Hv Hp Hg.
  destruct (retention_recurrent_spec B H Dh Dv query key value prev_state
              decay_gammas Hq Hk Hv Hp Hg) as (Hso & Hss & Hst & Hout).
  cbv zeta. repeat split; try assumption.
  intros ->. reflexivity.
Qed.

Lemma recurrent_kernel_definition_witness :
  let q := mkTensor [1; 2; 2]%nat (ix3 0 (fun _ h d => INR (h + d))) in
  let s := full [1; 2; 2; 2]%nat 3 in
  let g := full [2%nat] (1 / 2) in
  (shape q = [1; 2; 2]%nat /\ state_for [1; 2; 2; 2]%nat (Some s) /\
   gammas_for 2 (Some g)) /\
  get (snd (retention_recurrent q q q (Some s) (Some g)))
      [0; 1; 0; 1]%nat = 7 / 2 /\
  get (fst (retention_recurrent q q q (Some s) (Some g)))
      [0; 1; 1]%nat = 29 / 2.
Proof.
  intros q s g.
  split; [repeat split|].
  pose proof (recurrent_kernel_definition 1 2 2 2 q q q (Some s) (Some g)
                eq_refl eq_refl eq_refl eq_refl eq_refl)
    as (_ & _ & Hst & _ & Hout).
  split.
  - rewrite Hst by lia. simpl. lra.
  - rewrite Hout by lia. cbn [Rsum]. rewrite !Hst by lia. simpl. lra.
Defined.

(** C4.  Decay schedule: for [H >= 1] heads the schedule holds [H]
    coefficients, the [h]-th being [1 - e^x] for the [h]-th of [H] exponents
    linearly interpolated from [log(1/32)] to [log(1/512)], both bounds
    included when [H >= 2]; for [H = 2] the coefficients are [1 - 1/32] and
    [1 - 1/512], which differ. *)
Theorem decay_schedule_definition :
  (forall H h, (h < H)%nat ->
     shape (_build_decay_gammas H) = [H] /\
     get (_build_decay_gammas H) [h] = schedule_spec H h) /\
  (forall H, (2 <= H)%nat ->
     interpolated_exponent H 0 = ln (1 / 32) /\
     interpolated_exponent H (H - 1) = ln (1 / 512)) /\
  get (_build_decay_gammas 2) [0%nat] = 1 - 1 / 32 /\
  get (_build_decay_gammas 2) [1%nat] = 1 - 1 / 512 /\
  get (_build_decay_gammas 2) [0%nat] <> get (_build_decay_gammas 2) [1%nat].
Proof.
  assert (H0 : get (_build_decay_gammas 2) [0%nat] = 1 - 1 / 32).
  { rewrite decay_gammas_get. simpl.
    replace (ln (1 / 32) + 0 * ((ln (1 / 512) - ln (1 / 32)) / 1))
      with (ln (1 / 32)) by field.
    rewrite exp_ln_32. reflexivity. }
  assert (H1 : get (_build_decay_gammas 2) [1%nat] = 1 - 1 / 512).
  { rewrite decay_gammas_get. simpl.
    replace (ln (1 / 32) + 1 * ((ln (1 / 512) - ln (1 / 32)) / 1))
      with (ln (1 / 512)) by field.
    rewrite exp_ln_512. reflexivity. }
  split; [|split; [|split; [exact H0 | split; [exact H1|]]]].
  - intros H h Hh. split; [reflexivity|].
    rewrite decay_gammas_get. unfold schedule_spec, interpolated_exponent.
    destruct (H =? 1)%nat; do 2 f_equal; unfold Rdiv; ring.
  - intros H HH. unfold interpolated_exponent.
    destruct (Nat.eqb_spec H 1); [lia|].
    assert (Hne : INR (H - 1) <> 0) by (apply not_0_INR; lia).
    split.
    + simpl. unfold Rdiv. ring.
    + replace (INR (H - 1) / INR (H - 1)) with 1 by (field; exact Hne).
      ring.
  - rewrite H0, H1. lra.
Qed.

Lemma decay_schedule_definition_witness :
  (1 < 3)%nat /\
  shape (_build_decay_gammas 3) = [3%nat] /\
  get (_build_decay_gammas 3) [1%nat] = schedule_spec 3 1.
Proof.
  split; [lia|].
  apply (proj1 decay_schedule_definition 3%nat 1%nat). lia.
Defined.

(** C5.  Range of the schedule: for every head count [H >= 1], every
    coefficient of the schedule lies strictly between 0 and 1. *)
Theorem decay_gammas_in_unit_interval (H h : nat) :
  (h < H)%nat -> 0 < get (_build_decay_gammas H) [h] < 1.
Proof.
  intros _. pose proof (decay_gammas_bounds H h). lra.
Qed.

Lemma decay_gammas_in_unit_interval_witness :
  (2 < 4)%nat /\ 0 < get (_build_decay_gammas 4) [2%nat] < 1.
Proof.
  split; [lia|]. apply decay_gammas_in_unit_interval. lia.
Defined.

(** C10.  One head: the schedule for [H = 1] is the single coefficient
    [1 - 1/32 = 31/32], from the start bound [log(1/32)] of the
    interpolation; it is not the coefficient of the end bound [log(1/512)]. *)
Theorem single_head_schedule :
  shape (_build_decay_gammas 1) = [1%nat] /\
  get (_build_decay_gammas 1) [0%nat] = 1 - exp (ln (1 / 32)) /\
  get (_build_decay_gammas 1) [0%nat] = 31 / 32 /\
  get (_build_decay_gammas 1) [0%nat] <> 1 - exp (ln (1 / 512)).
Proof.
  assert (H0 : get (_build_decay_gammas 1) [0%nat] = 1 - exp (ln (1 / 32))).
  { rewrite decay_gammas_get. reflexivity. }
  split; [reflexivity|]. split; [exact H0|]. split.
  - rewrite H0, exp_ln_32. lra.
  - rewrite H0, exp_ln_32, exp_ln_512. lra.
Qed.

(** C6, as the specification states it, fails: with the vector of eight
    ones at every position, the parallel kernel returns an output whose
    position 0 holds 8 where the value vector holds 1. *)
Lemma scenario_B_fails_on_ones :
  (exists out w,
     retention_parallel (same_vector 1 2 8 (full [8%nat] 1))
       (same_vector 1 2 8 (full [8%nat] 1))
       (same_vector 1 2 8 (full [8%nat] 1)) None false = Some (out, w) /\
     get out [0; 0; 0; 0]%nat = 8 /\
     get (same_vector 1 2 8 (full [8%nat] 1)) [0; 0; 0; 0]%nat = 1) /\
  ~ scenario_B (full [8%nat] 1).
Proof.
  set (t := same_vector 1 2 8 (full [8%nat] 1)).
  destruct (parallel_first_position 1 2 8 8 8 8 t t t None
              eq_refl eq_refl eq_refl I) as (out & Hpar & Hso & Hval);
    try lia.
  destruct (Hpar false) as (w & Hrun).
  assert (H8 : get out [0; 0; 0; 0]%nat = 8).
  { rewrite Hval by lia. simpl. lra. }
  split.
  - exists out, w. repeat split; assumption.
  - unfold scenario_B. fold t. intros (out' & w' & Hrun' & [_ Hel]).
    rewrite Hrun in Hrun'. injection Hrun' as <- _.
    specialize (Hel [0; 0; 0]%nat).
    cbn [select2 shape get] in Hel. unfold dim in Hel. rewrite Hso in Hel.
    specialize (Hel ltac:(repeat constructor; lia)).
    rewrite H8 in Hel. simpl in Hel. lra.
Qed.

(** C6, amended.  Scenario B: batch 1, 2 heads, sequence length 8, head
    dimension 8, the same vector [x] fed as query, key and value at every
    position.  Position 0 of the parallel output is the value vector at
    position 0 multiplied by the squared norm of [x], the similarity of
    position 0 with itself; it is the value vector itself when that squared
    norm is 1. *)
Theorem scenario_B_first_position (x : Tensor R) :
  shape x = [8%nat] ->
  scenario_B_scaled x /\ (squared_norm x = 1 -> scenario_B x).
Proof.
  intros Hx.
  set (t := same_vector 1 2 8 x).
  assert (Ht : shape t = [1; 2; 8; 8]%nat).
  { subst t. unfold same_vector, dim. rewrite Hx. reflexivity. }
  destruct (parallel_first_position 1 2 8 8 8 8 t t t None Ht Ht Ht I)
    as (out & Hpar & Hso & Hval); try lia.
  destruct (Hpar false) as (w & Hrun).
  assert (Hrow : forall ix, in_bounds ix (shape (select2 0 out)) ->
            get (select2 0 out) ix =
            squared_norm x * get (select2 0 t) ix).
  { intros ix Hix. cbn [select2 shape] in Hix. unfold dim in Hix.
    rewrite Hso in Hix. apply in_bounds_3 in Hix.
    destruct Hix as (b & h & d & -> & Hb & Hh & Hd).
    cbn [select2 get]. rewrite Hval by assumption.
    unfold squared_norm, dim. rewrite Hx. reflexivity. }
  assert (Hshape : shape (select2 0 out) = shape (select2 0 t)).
  { cbn [select2 shape]. unfold dim. rewrite Hso, Ht. reflexivity. }
  split.
  - exists out, w. split; [exact Hrun|]. split; [exact Hshape|].
    intros ix Hix. rewrite Hrow by exact Hix. reflexivity.
  - intros Hnorm. exists out, w. split; [exact Hrun|].
    split; [exact Hshape|].
    intros ix Hix. rewrite Hrow by exact Hix. rewrite Hnorm.
    apply Rmult_1_l.
Qed.

Lemma scenario_B_first_position_witness :
  shape (full [8%nat] 1) = [8%nat] /\ scenario_B_scaled (full [8%nat] 1).
Proof.
  split; [reflexivity|].
  apply (scenario_B_first_position (full [8%nat] 1)). reflexivity.
Defined.

(** C7, as the specification states it, fails: an embedding dimension of
    0 with 2 heads passes the three checks (0 is divisible by 2, the head
    dimension 0 is a multiple of 8 and at most 128), yet the construction
    raises, when the empty weights are initialised.  A negative embedding
    dimension that passes the checks raises as well, when the first layer is
    built. *)
Lemma construction_raises_at_dimension_zero :
  MultiheadRetention.__init__ 0 2 0 true true =
    MultiheadRetention.Raise MultiheadRetention.ZeroDivisionError /\
  MultiheadRetention.__init__ (-16) 2 0 true true =
    MultiheadRetention.Raise MultiheadRetention.RuntimeError /\
  MultiheadRetention.evenly_divisible 0 2 /\
  ((0 / 2) mod 8 = 0)%Z /\ (0 / 2 <= 128)%Z /\
  ~ MultiheadRetention.raises_as_specified 0 2 0 true.
Proof.
  assert (H0 : MultiheadRetention.__init__ 0 2 0 true true =
            MultiheadRetention.Raise MultiheadRetention.ZeroDivisionError)
    by (rewrite init_batch_first; reflexivity).
  assert (Hdiv : MultiheadRetention.evenly_divisible 0 2)
    by (split; [discriminate | reflexivity]).
  split; [exact H0|].
  split; [rewrite init_batch_first; reflexivity|].
  split; [exact Hdiv|]. split; [reflexivity|]. split; [discriminate|].
  intros [Hraise _].
  destruct Hraise as [Hnd | [H8 | Hgt]].
  - eexists. exact H0.
  - contradiction.
  - apply H8. reflexivity.
  - revert Hgt. apply Z.lt_asymm. reflexivity.
Qed.

(** C7, amended.  Construction: with [batch_first=False] construction
    raises at once; with [batch_first=True] and a positive [embed_dim] it
    raises if and only if [embed_dim] is not evenly divisible by
    [num_heads], or the head dimension [embed_dim / num_heads] is not a
    multiple of 8, or it exceeds 128.  With [embed_dim = 15] and
    [num_heads = 2] it raises; when it does not raise, the module is
    constructed.  (A head count of zero divides nothing: the division itself
    raises.) *)
Theorem construction_raises_iff (embed_dim num_heads : Z) (dropout : R)
    (bias : bool) :
  MultiheadRetention.__init__ embed_dim num_heads dropout bias false =
    MultiheadRetention.Raise MultiheadRetention.NotImplementedError /\
  ((0 < embed_dim)%Z ->
   (MultiheadRetention.raises
      (MultiheadRetention.__init__ embed_dim num_heads dropout bias true) <->
    ~ MultiheadRetention.evenly_divisible embed_dim num_heads \/
    ((embed_dim / num_heads) mod 8 <> 0)%Z \/
    (128 < embed_dim / num_heads)%Z)) /\
  MultiheadRetention.raises
    (MultiheadRetention.__init__ 15 2 dropout bias true) /\
  (~ MultiheadRetention.raises
       (MultiheadRetention.__init__ embed_dim num_heads dropout bias true) ->
   MultiheadRetention.__init__ embed_dim num_heads dropout bias true =
   MultiheadRetention.Ok
     (MultiheadRetention.mk embed_dim num_heads dropout bias true)).
Proof.
  split; [reflexivity|]. split; [|split].
  - intros Hpos.
    rewrite init_batch_first. unfold MultiheadRetention.evenly_divisible.
    destruct (Z.eqb_spec num_heads 0) as [Hn|Hn].
    { split; [intros _; left; tauto | intros _; eexists; reflexivity]. }
    destruct (Z.eqb_spec (embed_dim mod num_heads) 0) as [Hm|Hm]; simpl.
    2:{ split; [intros _; left; tauto | intros _; eexists; reflexivity]. }
    destruct (Z.eqb_spec ((embed_dim / num_heads) mod 8) 0) as [H8|H8];
      simpl.
    2:{ split; [intros _; right; left; exact H8
               | intros _; eexists; reflexivity]. }
    destruct (Z.leb_spec (embed_dim / num_heads) 128) as [Hle|Hgt]; simpl.
    2:{ split; [intros _; right; right; exact Hgt
               | intros _; eexists; reflexivity]. }
    destruct (Z.ltb_spec embed_dim 0) as [Hneg|_]; [lia|].
    destruct (Z.eqb_spec embed_dim 0) as [Hz|_]; [lia|].
    split.
    + intros [e He]. discriminate.
    + intros [Hc | [Hc | Hc]]; [tauto | congruence | lia].
  - rewrite init_batch_first. eexists. reflexivity.
  - intros Hno. rewrite init_batch_first in *.
    destruct (num_heads =? 0)%Z;
      [exfalso; apply Hno; eexists; reflexivity|].
    destruct (negb (embed_dim mod num_heads =? 0)%Z);
      [exfalso; apply Hno; eexists; reflexivity|].
    destruct (negb ((embed_dim / num_heads) mod 8 =? 0)%Z);
      [exfalso; apply Hno; eexists; reflexivity|].
    destruct (negb (embed_dim / num_heads <=? 128)%Z);
      [exfalso; apply Hno; eexists; reflexivity|].
    destruct (embed_dim <? 0)%Z;
      [exfalso; apply Hno; eexists; reflexivity|].
    destruct (embed_dim =? 0)%Z;
      [exfalso; apply Hno; eexists; reflexivity|].
    reflexivity.
Qed.

Lemma construction_raises_iff_witness :
  ((0 < 512)%Z /\ (128 < 512 / 2)%Z) /\
  MultiheadRetention.raises (MultiheadRetention.__init__ 512 2 0 true true).
Proof.
  split; [split; reflexivity|].
  apply (proj1 (proj2 (construction_raises_iff 512 2 0 true))).
  - reflexivity.
  - right. right. reflexivity.
Defined.

(** C8.  Weights: on every valid input the parallel kernel returns, when
    [need_weights] is true, the decay-masked similarity (the query-key
    contraction multiplied elementwise by the decay mask) as its second
    result, and nothing as its second result when [need_weights] is false;
    the first result is the same in both cases. *)
Theorem weights_return_contract (B H N S Dh Dv : nat)
    (query key value : Tensor R) (decay_gammas : option (Tensor R)) :
  shape query = [B; H; N; Dh] ->
  shape key = [B; H; S; Dh] ->
  shape value = [B; H; S; Dv] ->
  valid_gammas H decay_gammas ->
  exists retention similarity decay_mask,
    retention_parallel query key value decay_gammas true
      = Some (retention, Some similarity) /\
    retention_parallel query key value decay_gammas false
      = Some (retention, None) /\
    _build_decay_mask N S (gammas_or_default decay_gammas query)
      = Some decay_mask /\
    shape similarity = [B; H; N; S] /\
    forall b h i j,
      (b < B)%nat -> (h < H)%nat -> (i < N)%nat -> (j < S)%nat ->
      get similarity [b; h; i; j] =
      Rsum Dh (fun d => get query [b; h; i; d] * get key [b; h; j; d]) *
      get decay_mask [h; i; j].
Proof.
  intros Hq Hk Hv Hg.
  destruct (retention_parallel_spec B H N S Dh Dv query key value
              decay_gammas Hq Hk Hv Hg)
    as (out & w & Hpar & _ & Hsw & Hw & _).
  destruct (gammas_or_default_valid H decay_gammas query Hg) as [Hgs Hgr].
  { unfold dim. rewrite Hq. reflexivity. }
  destruct (decay_mask_entries N S H _ Hgs Hgr) as (D & HD & _ & HDe).
  exists out, w, D. split; [apply (Hpar true)|].
  split; [apply (Hpar false)|]. split; [exact HD|]. split; [exact Hsw|].
  intros b h i j Hb Hh Hi Hj.
  rewrite Hw, HDe by assumption. reflexivity.
Qed.

Lemma weights_return_contract_witness :
  let x := mkTensor [1; 1; 2; 1]%nat (ix4 0 (fun _ _ n _ => 1 + INR n)) in
  (shape x = [1; 1; 2; 1]%nat /\ valid_gammas 1 None) /\
  exists retention similarity,
    retention_parallel x x x None true = Some (retention, Some similarity) /\
    retention_parallel x x x None false = Some (retention, None).
Proof.
  intros x. split; [split; [reflexivity | exact I]|].
  destruct (weights_return_contract 1 1 2 2 1 1 x x x None
              eq_refl eq_refl eq_refl I)
    as (r & s & _ & Ht & Hf & _).
  exists r, s. split; [exact Ht | exact Hf].
Defined.

(** C9.  The recurrent kernel leaves its arguments alone: after a call with
    a previous state, that state (and every other tensor there was) is
    unchanged, the next state and the output are newly allocated tensors,
    and what they hold is computed from the values of the arguments alone,
    whatever else the store holds. *)
Theorem recurrent_state_not_mutated (st : Store.store)
    (query key value prev_state : Store.ref) (decay_gammas : option Store.ref)
    (tq tk tv tprev : Tensor R) (tg : option (Tensor R)) :
  nth_error st query = Some tq ->
  nth_error st key = Some tk ->
  nth_error st value = Some tv ->
  nth_error st prev_state = Some tprev ->
  Store.holds st decay_gammas tg ->
  exists retention state st',
    Store.retention_recurrent query key value (Some prev_state)
      decay_gammas st = Some ((retention, state), st') /\
    nth_error st' prev_state = Some tprev /\
    Store.preserves st st' /\
    state <> prev_state /\
    nth_error st state = None /\
    nth_error st retention = None /\
    nth_error st' state =
      Some (snd (retention_recurrent tq tk tv (Some tprev) tg)) /\
    nth_error st' retention =
      Some (fst (retention_recurrent tq tk tv (Some tprev) tg)).
Proof.
  intros Hq Hk Hv Hp Hg.
  destruct (store_recurrent_run st query key value (Some prev_state)
              decay_gammas tq tk tv (Some tprev) tg Hq Hk Hv Hp Hg)
    as (r & s & st' & Hrun & Hpres & Hr & Hs & Hvr & Hvs).
  exists r, s, st'. split; [exact Hrun|].
  split; [apply Hpres, Hp|]. split; [exact Hpres|].
  assert (Hlt : (prev_state < length st)%nat).
  { apply nth_error_Some. congruence. }
  split; [lia|].
  split; [apply nth_error_None, Hs|].
  split; [apply nth_error_None, Hr|].
  split; assumption.
Qed.

Lemma recurrent_state_not_mutated_witness :
  let x := full [1; 1; 1]%nat 2 in
  let s := full [1; 1; 1; 1]%nat 5 in
  let st := [x; s] in
  (nth_error st 0 = Some x /\ nth_error st 1 = Some s /\
   Store.holds st None None) /\
  exists retention state st',
    Store.retention_recurrent 0%nat 0%nat 0%nat (Some 1%nat) None st
      = Some ((retention, state), st') /\
    nth_error st' 1 = Some s /\ state <> 1%nat.
Proof.
  intros x s st. split; [repeat split|].
  destruct (recurrent_state_not_mutated st 0%nat 0%nat 0%nat 1%nat None
              x x x s None
              eq_refl eq_refl eq_refl eq_refl I)
    as (r & s' & st' & Hrun & Hkeep & _ & Hne & _).
  exists r, s', st'. repeat split; assumption.
Defined.

(** * Further properties *)

(** ** The decay schedule across heads *)

Lemma schedule_slope_negative (H : nat) :
  (2 <= H)%nat -> (ln (1 / 512) - ln (1 / 32)) / INR (H - 1) < 0.
Proof.
  intros HH. pose proof ln_512_lt_ln_32.
  assert (0 < INR (H - 1)) by (apply lt_0_INR; lia).
  assert (0 < / INR (H - 1)) by (apply Rinv_0_lt_compat; assumption).
  unfold Rdiv. nra.
Qed.

(** Every exponent of the schedule is at least [log(1/512)]. *)
Lemma linspace_exponent_ge (H h : nat) :
  (h < H)%nat ->
  ln (1 / 512) <=
  (if (H =? 1)%nat then ln (1 / 32)
   else ln (1 / 32) + INR h * ((ln (1 / 512) - ln (1 / 32)) / INR (H - 1))).
Proof.
  intros Hh. pose proof ln_512_lt_ln_32.
  destruct (Nat.eqb_spec H 1) as [|Hne]; [lra|].
  assert (Hpos : 0 < INR (H - 1)) by (apply lt_0_INR; lia).
  assert (Hle : INR h <= INR (H - 1)) by (apply le_INR; lia).
  assert (Hh0 : 0 <= INR h) by apply pos_INR.
  replace (ln (1 / 32) + INR h * ((ln (1 / 512) - ln (1 / 32)) / INR (H - 1)))
    with (ln (1 / 32) +
          (INR h / INR (H - 1)) * (ln (1 / 512) - ln (1 / 32)))
    by (field; lra).
  assert (Hfrac : INR h / INR (H - 1) <= 1).
  { apply Rmult_le_reg_r with (INR (H - 1)); [exact Hpos|].
    unfold Rdiv. rewrite Rmult_assoc, Rinv_l by lra. lra. }
  nra.
Qed.

(** The coefficients of the schedule grow with the head index, so every
    head has a coefficient of its own, and all of them lie between the
    coefficients [31/32] and [511/512] of the two window bounds. *)
Theorem decay_schedule_increasing (H h h' : nat) :
  (h < h')%nat -> (h' < H)%nat ->
  31 / 32 <= get (_build_decay_gammas H) [h] /\
  get (_build_decay_gammas H) [h] < get (_build_decay_gammas H) [h'] /\
  get (_build_decay_gammas H) [h'] <= 511 / 512.
Proof.
  intros Hlt Hh'. split; [apply decay_gammas_bounds|]. split.
  - rewrite !decay_gammas_get.
    destruct (Nat.eqb_spec H 1) as [|Hne]; [lia|].
    pose proof (schedule_slope_negative H ltac:(lia)) as Hs.
    assert (INR h < INR h') by (apply lt_INR; exact Hlt).
    assert (Hx : ln (1 / 32) +
              INR h' * ((ln (1 / 512) - ln (1 / 32)) / INR (H - 1)) <
            ln (1 / 32) +
              INR h * ((ln (1 / 512) - ln (1 / 32)) / INR (H - 1))) by nra.
    apply exp_increasing in Hx. lra.
  - rewrite decay_gammas_get.
    pose proof (linspace_exponent_ge H h' Hh') as Hge.
    set (x := if (H =? 1)%nat then _ else _) in *.
    assert (exp (ln (1 / 512)) <= exp x).
    { destruct Hge as [Hl | Heq]; [left; apply exp_increasing, Hl|].
      rewrite Heq. lra. }
    rewrite exp_ln_512 in *. lra.
Qed.

Lemma decay_schedule_increasing_witness :
  ((1 < 2)%nat /\ (2 < 4)%nat) /\
  get (_build_decay_gammas 4) [1%nat] < get (_build_decay_gammas 4) [2%nat].
Proof.
  split; [lia|].
  apply (decay_schedule_increasing 4 1 2); lia.
Defined.

(** ** The decay mask outside the unit interval *)

Lemma in_bounds_indices (sh ix : list nat) :
  in_bounds ix sh -> In ix (indices sh).
Proof.
  intros H. induction H as [|i d ix sh Hi _ IH]; simpl.
  - left. reflexivity.
  - apply in_flat_map. exists i. split.
    + apply in_seq. lia.
    + apply in_map, IH.
Qed.

Lemma float_pow_inf (g : R) :
  float_pow g Inf =
  if Rlt_dec (Rabs g) 1 then Some 0
  else if Req_dec_T (Rabs g) 1 then Some 1 else None.
Proof. reflexivity. Qed.

(** The mask, entry by entry, when every entry is a real number. *)
Lemma decay_mask_cases (N M H : nat) (g : Tensor R) :
  shape g = [H] ->
  (forall h i j, (h < H)%nat -> (i < N)%nat -> (j < M)%nat ->
     is_finite (float_pow (get g [h]) (filled_distance i j)) = true) ->
  exists D, _build_decay_mask N M g = Some D /\
    shape D = [H; N; M] /\
    forall h i j, (h < H)%nat -> (i < N)%nat -> (j < M)%nat ->
      float_pow (get g [h]) (filled_distance i j) = Some (get D [h; i; j]).
Proof.
  intros Hsh Hfin.
  unfold _build_decay_mask, finite_tensor.
  set (P := broadcast float_pow _ _).
  assert (HshP : shape P = [H; N; M]).
  { subst P. simpl. rewrite Hsh. simpl. rewrite !bdim_one_r. reflexivity. }
  assert (HP : forall h i j, (h < H)%nat -> (i < N)%nat -> (j < M)%nat ->
            get P [h; i; j] = float_pow (get g [h]) (filled_distance i j)).
  { intros h i j Hh Hi Hj. subst P. simpl. rewrite Hsh. simpl.
    rewrite !bdim_one_r. rewrite !bclamp_lt by (rewrite ?bclamp_lt; assumption).
    unfold filled_distance.
    destruct (Z.leb_spec 1 (Z.of_nat j - Z.of_nat i)) as [Hji|Hji];
      destruct (Nat.ltb_spec i j) as [Hlt|Hle]; try lia.
    - reflexivity.
    - do 2 f_equal. lia. }
  clearbody P.
  assert (Hall : forallb (fun ix => is_finite (get P ix)) (indices (shape P))
                 = true).
  { apply forallb_forall. intros ix Hin. apply indices_in_bounds in Hin.
    rewrite HshP in Hin. apply in_bounds_3 in Hin.
    destruct Hin as (h & i & j & -> & Hh & Hi & Hj).
    rewrite HP by assumption. apply Hfin; assumption. }
  rewrite Hall. eexists. split; [reflexivity|]. split; [exact HshP|].
  intros h i j Hh Hi Hj. simpl. rewrite HP by assumption.
  specialize (Hfin h i j Hh Hi Hj).
  destruct (float_pow (get g [h]) (filled_distance i j));
    [reflexivity | discriminate].
Qed.

Lemma decay_mask_none (N M H : nat) (g : Tensor R) (h i j : nat) :
  shape g = [H] -> (h < H)%nat -> (i < N)%nat -> (j < M)%nat ->
  float_pow (get g [h]) (filled_distance i j) = None ->
  _build_decay_mask N M g = None.
Proof.
  intros Hsh Hh Hi Hj Hnone.
  unfold _build_decay_mask, finite_tensor.
  set (P := broadcast float_pow _ _).
  assert (HshP : shape P = [H; N; M]).
  { subst P. simpl. rewrite Hsh. simpl. rewrite !bdim_one_r. reflexivity. }
  assert (HP : get P [h; i; j] = None).
  { subst P. simpl. rewrite Hsh. simpl.
    rewrite !bdim_one_r. rewrite !bclamp_lt by (rewrite ?bclamp_lt; assumption).
    rewrite <- Hnone. unfold filled_distance.
    destruct (Z.leb_spec 1 (Z.of_nat j - Z.of_nat i)) as [Hji|Hji];
      destruct (Nat.ltb_spec i j) as [Hlt|Hle]; try lia.
    - reflexivity.
    - do 2 f_equal. lia. }
  clearbody P.
  destruct (forallb _ _) eqn:Hall; [|reflexivity].
  rewrite forallb_forall in Hall.
  specialize (Hall [h; i; j]). rewrite HP in Hall.
  discriminate Hall. apply in_bounds_indices. rewrite HshP.
  repeat constructor; assumption.
Qed.

(** A coefficient of absolute value above 1 breaks the mask as soon as a
    key position lies ahead of a query position: the infinite distance there
    gives an infinite weight, and the mask is no tensor of real numbers. *)
Theorem decay_mask_infinite_ahead (N M H h : nat) (g : Tensor R) :
  shape g = [H] -> (0 < N)%nat -> (1 < M)%nat ->
  (h < H)%nat -> 1 < Rabs (get g [h]) ->
  _build_decay_mask N M g = None.
Proof.
  intros Hsh HN HM Hh Hg.
  apply (decay_mask_none N M H g h 0 1 Hsh Hh HN HM).
  unfold filled_distance. simpl.
  destruct (Rlt_dec (Rabs (get g [h])) 1) as [|Hn1]; [lra|].
  destruct (Req_dec_T (Rabs (get g [h])) 1) as [|Hn2]; [lra | reflexivity].
Qed.

Lemma decay_mask_infinite_ahead_witness :
  (shape (full [1%nat] 2) = [1%nat] /\ (0 < 1)%nat /\ (1 < 2)%nat /\
   (0 < 1)%nat /\ 1 < Rabs (get (full [1%nat] 2) [0%nat])) /\
  _build_decay_mask 1 2 (full [1%nat] 2) = None.
Proof.
  assert (Hg : 1 < Rabs (get (full [1%nat] 2) [0%nat]))
    by (simpl; rewrite Rabs_pos_eq by lra; lra).
  split; [repeat split; solve [lia | exact Hg]|].
  apply (decay_mask_infinite_ahead 1 2 1 0 (full [1%nat] 2));
    solve [reflexivity | lia | exact Hg].
Defined.

(** With coefficients of absolute value at most 1 the mask is a real
    tensor; its entries ahead of the query are 0 for a coefficient of
    absolute value below 1, but 1 for a coefficient of absolute value 1,
    which the mask therefore does not hide from the future. *)
Theorem decay_mask_unit_modulus (N M H : nat) (g : Tensor R) :
  shape g = [H] ->
  (forall h, (h < H)%nat -> Rabs (get g [h]) <= 1) ->
  exists D, _build_decay_mask N M g = Some D /\
    forall h i j, (h < H)%nat -> (i < N)%nat -> (j < M)%nat ->
      ((j <= i)%nat -> get D [h; i; j] = get g [h] ^ (i - j)) /\
      ((i < j)%nat -> Rabs (get g [h]) < 1 -> get D [h; i; j] = 0) /\
      ((i < j)%nat -> Rabs (get g [h]) = 1 -> get D [h; i; j] = 1).
Proof.
  intros Hsh Hg.
  destruct (decay_mask_cases N M H g Hsh) as (D & HD & _ & He).
  { intros h i j Hh Hi Hj. unfold filled_distance.
    destruct (i <? j)%nat; [|reflexivity]. rewrite float_pow_inf.
    specialize (Hg h Hh).
    destruct (Rlt_dec (Rabs (get g [h])) 1) as [|Hn1]; [reflexivity|].
    destruct (Req_dec_T (Rabs (get g [h])) 1) as [|Hn2]; [reflexivity|lra]. }
  exists D. split; [exact HD|].
  intros h i j Hh Hi Hj. specialize (He h i j Hh Hi Hj).
  unfold filled_distance in He.
  destruct (Nat.ltb_spec i j) as [Hlt|Hle].
  - rewrite float_pow_inf in He. repeat split; intros; try lia.
    + destruct (Rlt_dec (Rabs (get g [h])) 1); [congruence | contradiction].
    + destruct (Rlt_dec (Rabs (get g [h])) 1); [lra|].
      destruct (Req_dec_T (Rabs (get g [h])) 1); [congruence | contradiction].
  - simpl in He. repeat split; intros; try lia. congruence.
Qed.

Lemma decay_mask_unit_modulus_witness :
  (shape (full [1%nat] 1) = [1%nat] /\
   forall h, (h < 1)%nat -> Rabs (get (full [1%nat] 1) [h]) <= 1) /\
  exists D, _build_decay_mask 1 2 (full [1%nat] 1) = Some D /\
            get D [0; 0; 1]%nat = 1.
Proof.
  assert (Hg : forall h, (h < 1)%nat ->
            Rabs (get (full [1%nat] 1) [h]) <= 1).
  { intros h _. simpl. rewrite Rabs_R1. lra. }
  split; [split; [reflexivity | exact Hg]|].
  destruct (decay_mask_unit_modulus 1 2 1 (full [1%nat] 1) eq_refl Hg)
    as (D & HD & He).
  exists D. split; [exact HD|].
  apply (He 0%nat 0%nat 1%nat); try lia. simpl. apply Rabs_R1.
Defined.

(** ** The kernels *)

Lemma gammas_or_default_dim (g : option (Tensor R)) (q q' : Tensor R) :
  dim q 1 = dim q' 1 -> gammas_or_default g q = gammas_or_default g q'.
Proof.
  intros H. destruct g; simpl; [reflexivity | rewrite H; reflexivity].
Qed.

Lemma state_at_shape (sh : list nat) (k v g : Tensor R) (t : nat)
    (prev : option (Tensor R)) :
  state_at sh k v g t prev -> state_for sh prev.
Proof. destruct prev; simpl; [intros [H _]; exact H | trivial]. Qed.

Lemma dim_of_shape {E} (x : Tensor E) (i : nat) (sh : list nat) :
  shape x = sh -> dim x i = nth i sh 0%nat.
Proof. intros <-. reflexivity. Qed.

(** One call of the recurrent kernel on inputs that hold what the sequence
    holds at timestep [t]: the state it returns is the decayed sum over the
    first [t + 1] timesteps, and its output contracts the query with it. *)
Lemma recurrent_step_matching (B H T Dh Dv : nat) (q k v qt kt vt : Tensor R)
    (g : option (Tensor R)) (t : nat) (prev : option (Tensor R)) :
  shape q = [B; H; T; Dh] ->
  shape qt = [B; H; Dh] -> shape kt = [B; H; Dh] -> shape vt = [B; H; Dv] ->
  (forall b h d, (b < B)%nat -> (h < H)%nat -> (d < Dh)%nat ->
     get qt [b; h; d] = get q [b; h; t; d] /\
     get kt [b; h; d] = get k [b; h; t; d]) ->
  (forall b h m, (b < B)%nat -> (h < H)%nat -> (m < Dv)%nat ->
     get vt [b; h; m] = get v [b; h; t; m]) ->
  gammas_for H g ->
  state_at [B; H; Dh; Dv] k v (gammas_or_default g q) t prev ->
  let r := retention_recurrent qt kt vt prev g in
  state_at [B; H; Dh; Dv] k v (gammas_or_default g q) (S t) (Some (snd r)) /\
  shape (fst r) = [B; H; Dv] /\
  forall b h m, (b < B)%nat -> (h < H)%nat -> (m < Dv)%nat ->
    get (fst r) [b; h; m] =
    Rsum Dh (fun d =>
      get q [b; h; t; d] *
      accumulated_state k v (gammas_or_default g q) (S t) b h d m).
Proof.
  intros Hq Hqt Hkt Hvt Hqk Hv Hg Hprev r.
  assert (Hgam : gammas_or_default g qt = gammas_or_default g q).
  { apply gammas_or_default_dim. unfold dim. rewrite Hq, Hqt. reflexivity. }
  destruct (retention_recurrent_spec B H Dh Dv qt kt vt prev g
              Hqt Hkt Hvt (state_at_shape _ _ _ _ _ _ Hprev) Hg)
    as (Hso & Hss & Hst & Hout).
  fold r in Hso, Hss, Hst, Hout. rewrite Hgam in Hst.
  assert (Hnext : forall b h d m, in_bounds [b; h; d; m] [B; H; Dh; Dv] ->
            get (snd r) [b; h; d; m] =
            accumulated_state k v (gammas_or_default g q) (S t) b h d m).
  { intros b h d m Hin.
    pose proof (in_bounds_4_elim _ _ _ _ _ _ _ _ Hin) as (Hb & Hh & Hd & Hm).
    rewrite Hst by assumption.
    unfold accumulated_state. rewrite decayed_sum_step.
    rewrite (proj2 (Hqk b h d Hb Hh Hd)), (Hv b h m Hb Hh Hm).
    destruct prev as [p|]; simpl in Hprev.
    - destruct Hprev as [_ Hp]. rewrite (Hp _ _ _ _ Hin). reflexivity.
    - subst t. unfold decayed_sum. simpl. lra. }
  split; [split; [exact Hss | exact Hnext]|]. split; [exact Hso|].
  intros b h m Hb Hh Hm. rewrite Hout by assumption.
  apply Rsum_ext. intros d Hd.
  rewrite (proj1 (Hqk b h d Hb Hh Hd)).
  rewrite Hnext by (apply in_bounds_4_intro; assumption). reflexivity.
Qed.

(** Row [i] of the parallel output, read as the recurrent kernel computes
    it. *)
Lemma parallel_row_as_state (B H T Dh Dv : nat) (q k v : Tensor R)
    (g : option (Tensor R)) :
  shape q = [B; H; T; Dh] -> shape k = [B; H; T; Dh] ->
  shape v = [B; H; T; Dv] -> valid_gammas H g ->
  exists out w,
    (forall need_weights,
       retention_parallel q k v g need_weights =
       Some (out, if need_weights then Some w else None)) /\
    shape out = [B; H; T; Dv] /\
    forall b h i m,
      (b < B)%nat -> (h < H)%nat -> (i < T)%nat -> (m < Dv)%nat ->
      get out [b; h; i; m] =
      Rsum Dh (fun d =>
        get q [b; h; i; d] *
        accumulated_state k v (gammas_or_default g q) (S i) b h d m).
Proof.
  intros Hq Hk Hv Hg.
  destruct (retention_parallel_spec B H T T Dh Dv q k v g Hq Hk Hv Hg)
    as (out & w & Hpar & Hso & _ & Hw & Hout).
  exists out, w. split; [exact Hpar|]. split; [exact Hso|].
  intros b h i m Hb Hh Hi Hm. rewrite Hout by assumption.
  unfold accumulated_state. rewrite (retention_telescope _ Dh T i) by exact Hi.
  apply Rsum_ext. intros j Hj. rewrite Hw by assumption. reflexivity.
Qed.

(** Two inputs that agree on the query at position [i] and on the keys and
    values at positions up to [i] give the same row [i]. *)
Lemma parallel_rows_agree (B H N S Dh Dv i : nat)
    (q k v q' k' v' : Tensor R) (g : option (Tensor R)) :
  shape q = [B; H; N; Dh] -> shape k = [B; H; S; Dh] ->
  shape v = [B; H; S; Dv] ->
  shape q' = [B; H; N; Dh] -> shape k' = [B; H; S; Dh] ->
  shape v' = [B; H; S; Dv] ->
  valid_gammas H g -> (i < N)%nat ->
  (forall b h d, (b < B)%nat -> (h < H)%nat -> (d < Dh)%nat ->
     get q [b; h; i; d] = get q' [b; h; i; d]) ->
  (forall b h j d,
     (b < B)%nat -> (h < H)%nat -> (j <= i)%nat -> (j < S)%nat ->
     (d < Dh)%nat -> get k [b; h; j; d] = get k' [b; h; j; d]) ->
  (forall b h j d,
     (b < B)%nat -> (h < H)%nat -> (j <= i)%nat -> (j < S)%nat ->
     (d < Dv)%nat -> get v [b; h; j; d] = get v' [b; h; j; d]) ->
  exists out out',
    (forall nw, exists w, retention_parallel q k v g nw = Some (out, w)) /\
    (forall nw, exists w, retention_parallel q' k' v' g nw = Some (out', w)) /\
    forall b h d, (b < B)%nat -> (h < H)%nat -> (d < Dv)%nat ->
      get out [b; h; i; d] = get out' [b; h; i; d].
Proof.
  intros Hq Hk Hv Hq' Hk' Hv' Hg Hi Eq Ek Ev.
  destruct (retention_parallel_spec B H N S Dh Dv q k v g Hq Hk Hv Hg)
    as (out & w & Hpar & _ & _ & Hw & Hout).
  destruct (retention_parallel_spec B H N S Dh Dv q' k' v' g Hq' Hk' Hv' Hg)
    as (out' & w' & Hpar' & _ & _ & Hw' & Hout').
  assert (Hgam : gammas_or_default g q = gammas_or_default g q').
  { apply gammas_or_default_dim. unfold dim. rewrite Hq, Hq'. reflexivity. }
  exists out, out'. split; [|split].
  - intros nw. eexists. apply Hpar.
  - intros nw. eexists. apply Hpar'.
  - intros b h d Hb Hh Hd.
    rewrite Hout, Hout' by assumption.
    apply Rsum_ext. intros j Hj.
    rewrite Hw, Hw' by assumption. rewrite <- Hgam.
    unfold decay_mask_spec. destruct (Nat.leb_spec j i) as [Hle|Hgt].
    + rewrite (Ev b h j d) by assumption. f_equal. f_equal.
      apply Rsum_ext. intros e He.
      rewrite Eq, (Ek b h j e) by assumption. reflexivity.
    + lra.
Qed.


(** Row [i] of the parallel kernel only reads the query at position [i] and
    the keys and values at positions up to [i]: changing the inputs at any
    later position leaves it as it is. *)
Theorem parallel_kernel_causal (B H N S Dh Dv i : nat)
    (q k v q' k' v' : Tensor R) (g : option (Tensor R)) :
  shape q = [B; H; N; Dh] -> shape k = [B; H; S; Dh] ->
  shape v = [B; H; S; Dv] ->
  shape q' = [B; H; N; Dh] -> shape k' = [B; H; S; Dh] ->
  shape v' = [B; H; S; Dv] ->
  valid_gammas H g -> (i < N)%nat ->
  (forall b h d, (b < B)%nat -> (h < H)%nat -> (d < Dh)%nat ->
     get q [b; h; i; d] = get q' [b; h; i; d]) ->
  (forall b h j d,
     (b < B)%nat -> (h < H)%nat -> (j <= i)%nat -> (j < S)%nat ->
     (d < Dh)%nat -> get k [b; h; j; d] = get k' [b; h; j; d]) ->
  (forall b h j d,
     (b < B)%nat -> (h < H)%nat -> (j <= i)%nat -> (j < S)%nat ->
     (d < Dv)%nat -> get v [b; h; j; d] = get v' [b; h; j; d]) ->
  exists out out',
    (forall nw, exists w, retention_parallel q k v g nw = Some (out, w)) /\
    (forall nw, exists w, retention_parallel q' k' v' g nw = Some (out', w)) /\
    forall b h d, (b < B)%nat -> (h < H)%nat -> (d < Dv)%nat ->
      get out [b; h; i; d] = get out' [b; h; i; d].
Proof.
  intros. apply (parallel_rows_agree B H N S Dh Dv i q k v q' k' v' g);
    assumption.
Qed.

Lemma parallel_kernel_causal_witness :
  let x := full [1; 1; 2; 1]%nat 1 in
  let x' := mkTensor [1; 1; 2; 1]%nat
              (ix4 0 (fun _ _ n _ => if (n =? 0)%nat then 1 else 5)) in
  (shape x = [1; 1; 2; 1]%nat /\ shape x' = [1; 1; 2; 1]%nat /\
   valid_gammas 1 None /\ (0 < 2)%nat) /\
  exists out out',
    (forall nw, exists w, retention_parallel x x x None nw = Some (out, w)) /\
    (forall nw, exists w,
       retention_parallel x' x' x' None nw = Some (out', w)) /\
    get out [0; 0; 0; 0]%nat = get out' [0; 0; 0; 0]%nat.
Proof.
  intros x x'. split; [repeat split; lia|].
  assert (Hsame : forall b h j d, (j <= 0)%nat ->
            get x [b; h; j; d] = get x' [b; h; j; d]).
  { intros b h j d Hj. assert (j = 0)%nat as -> by lia. reflexivity. }
  destruct (parallel_kernel_causal 1 1 2 2 1 1 0 x x x x' x' x' None
              eq_refl eq_refl eq_refl eq_refl eq_refl eq_refl I)
    as (out & out' & Hr & Hr' & Hrow); try lia.
  - intros b h d _ _ _. apply Hsame. lia.
  - intros b h j d _ _ Hj _ _. apply Hsame, Hj.
  - intros b h j d _ _ Hj _ _. apply Hsame, Hj.
  - exists out, out'. split; [exact Hr|]. split; [exact Hr'|].
    apply Hrow; lia.
Defined.

(** The weights the parallel kernel returns give no weight to a key ahead
    of the query, and the plain query-key similarity to the key at the
    position of the query. *)
Theorem weights_lower_triangular (B H N S Dh Dv : nat)
    (q k v : Tensor R) (g : option (Tensor R)) :
  shape q = [B; H; N; Dh] -> shape k = [B; H; S; Dh] ->
  shape v = [B; H; S; Dv] -> valid_gammas H g ->
  exists out w,
    retention_parallel q k v g true = Some (out, Some w) /\
    forall b h i j, (b < B)%nat -> (h < H)%nat -> (i < N)%nat -> (j < S)%nat ->
      ((i < j)%nat -> get w [b; h; i; j] = 0) /\
      (i = j -> get w [b; h; i; j] =
                Rsum Dh (fun d => get q [b; h; i; d] * get k [b; h; j; d])).
Proof.
  intros Hq Hk Hv Hg.
  destruct (retention_parallel_spec B H N S Dh Dv q k v g Hq Hk Hv Hg)
    as (out & w & Hpar & _ & _ & Hw & _).
  exists out, w. split; [apply (Hpar true)|].
  intros b h i j Hb Hh Hi Hj. rewrite Hw by assumption.
  unfold decay_mask_spec. split.
  - intros Hlt. destruct (Nat.leb_spec j i); [lia | lra].
  - intros ->. rewrite Nat.leb_refl, Nat.sub_diag. simpl. lra.
Qed.


Lemma weights_lower_triangular_witness :
  let x := mkTensor [1; 1; 2; 1]%nat (ix4 0 (fun _ _ n _ => 1 + INR n)) in
  (shape x = [1; 1; 2; 1]%nat /\ valid_gammas 1 None) /\
  exists out w,
    retention_parallel x x x None true = Some (out, Some w) /\
    get w [0; 0; 0; 1]%nat = 0.
Proof.
  intros x. split; [split; [reflexivity | exact I]|].
  destruct (weights_lower_triangular 1 1 2 2 1 1 x x x None
              eq_refl eq_refl eq_refl I) as (out & w & Hrun & Hw).
  exists out, w. split; [exact Hrun|].
  apply (Hw 0%nat 0%nat 0%nat 1%nat); lia.
Defined.

(** A previous state of zeros is as good as none: the recurrent kernel
    returns the same output and the same state for both. *)
Theorem zero_state_is_absent (B H Dh Dv : nat) (q k v zero : Tensor R)
    (g : option (Tensor R)) :
  shape q = [B; H; Dh] -> shape k = [B; H; Dh] -> shape v = [B; H; Dv] ->
  gammas_for H g ->
  shape zero = [B; H; Dh; Dv] ->
  (forall ix, in_bounds ix [B; H; Dh; Dv] -> get zero ix = 0) ->
  tensor_eq (fst (retention_recurrent q k v (Some zero) g))
            (fst (retention_recurrent q k v None g)) /\
  tensor_eq (snd (retention_recurrent q k v (Some zero) g))
            (snd (retention_recurrent q k v None g)).
Proof.
  intros Hq Hk Hv Hg Hz Hzero.
  destruct (retention_recurrent_spec B H Dh Dv q k v (Some zero) g
              Hq Hk Hv Hz Hg) as (Hso & Hss & Hst & Hout).
  destruct (retention_recurrent_spec B H Dh Dv q k v None g
              Hq Hk Hv I Hg) as (Hso' & Hss' & Hst' & Hout').
  assert (Hstate : forall b h d m,
            (b < B)%nat -> (h < H)%nat -> (d < Dh)%nat -> (m < Dv)%nat ->
            get (snd (retention_recurrent q k v (Some zero) g)) [b; h; d; m] =
            get (snd (retention_recurrent q k v None g)) [b; h; d; m]).
  { intros b h d m Hb Hh Hd Hm. rewrite Hst, Hst' by assumption.
    rewrite Hzero by (apply in_bounds_4_intro; assumption). lra. }
  split; split.
  - rewrite Hso, Hso'. reflexivity.
  - intros ix Hix. rewrite Hso in Hix. apply in_bounds_3 in Hix.
    destruct Hix as (b & h & m & -> & Hb & Hh & Hm).
    rewrite Hout, Hout' by assumption. apply Rsum_ext. intros d Hd.
    rewrite Hstate by assumption. reflexivity.
  - rewrite Hss, Hss'. reflexivity.
  - intros ix Hix. rewrite Hss in Hix. apply in_bounds_4 in Hix.
    destruct Hix as (b & h & d & m & -> & Hb & Hh & Hd & Hm).
    apply Hstate; assumption.
Qed.

Lemma zero_state_is_absent_witness :
  let x := full [1; 1; 1]%nat 2 in
  let zero := full [1; 1; 1; 1]%nat 0 in
  (shape x = [1; 1; 1]%nat /\ gammas_for 1 None /\
   shape zero = [1; 1; 1; 1]%nat) /\
  tensor_eq (snd (retention_recurrent x x x (Some zero) None))
            (snd (retention_recurrent x x x None None)).
Proof.
  intros x zero. split; [repeat split|].
  apply (zero_state_is_absent 1 1 1 1 x x x zero None);
    solve [reflexivity | exact I | intros; reflexivity].
Defined.

Lemma recurrent_step_invariant (B H T Dh Dv : nat) (q k v : Tensor R)
    (g : option (Tensor R)) (t : nat) (prev : option (Tensor R)) :
  shape q = [B; H; T; Dh] -> shape k = [B; H; T; Dh] ->
  shape v = [B; H; T; Dv] -> gammas_for H g ->
  state_at [B; H; Dh; Dv] k v (gammas_or_default g q) t prev ->
  state_at [B; H; Dh; Dv] k v (gammas_or_default g q) (S t)
    (Some (snd (retention_recurrent (select2 t q) (select2 t k)
                  (select2 t v) prev g))).
Proof.
  intros Hq Hk Hv Hg Hprev.
  destruct (retention_recurrent_spec B H Dh Dv (select2 t q)
              (select2 t k) (select2 t v) prev g)
    as (_ & Hs & Hst & _).
  - shapes. reflexivity.
  - shapes. reflexivity.
  - shapes. reflexivity.
  - eapply state_at_shape, Hprev.
  - exact Hg.
  - split; [exact Hs|].
    intros b h d m Hin.
    pose proof (in_bounds_4_elim _ _ _ _ _ _ _ _ Hin) as (Hb & Hh & Hd & Hm).
    rewrite Hst by assumption.
    unfold accumulated_state. rewrite decayed_sum_step.
    destruct prev as [p|]; simpl in Hprev.
    + destruct Hprev as [_ Hp]. rewrite (Hp _ _ _ _ Hin). reflexivity.
    + subst t. unfold decayed_sum. simpl. lra.
Qed.

Lemma recurrent_final_state_invariant (B H T Dh Dv : nat) (q k v : Tensor R)
    (g : option (Tensor R)) :
  shape q = [B; H; T; Dh] -> shape k = [B; H; T; Dh] ->
  shape v = [B; H; T; Dv] -> gammas_for H g ->
  forall n a prev,
    state_at [B; H; Dh; Dv] k v (gammas_or_default g q) a prev ->
    state_at [B; H; Dh; Dv] k v (gammas_or_default g q) (a + n)
      (recurrent_final_state q k v g (seq a n) prev).
Proof.
  intros Hq Hk Hv Hg. induction n as [|n IH]; intros a prev Hprev.
  - rewrite Nat.add_0_r. exact Hprev.
  - cbn [seq recurrent_final_state].
    pose proof (recurrent_step_invariant B H T Dh Dv q k v g a prev
                  Hq Hk Hv Hg Hprev) as Hnext.
    destruct (retention_recurrent _ _ _ prev g) as [yr st].
    replace (a + S n)%nat with (S a + n)%nat by lia.
    apply IH. exact Hnext.
Qed.

(** After [n] steps from the absent state the loop holds the decayed sum
    of the key-value products of the [n] timesteps, the latest undecayed
    and each earlier one decayed once per step since; no bound on the
    coefficients is needed. *)
Theorem recurrent_state_closed_form (B H T Dh Dv n : nat)
    (q k v : Tensor R) (g : option (Tensor R)) :
  shape q = [B; H; T; Dh] -> shape k = [B; H; T; Dh] ->
  shape v = [B; H; T; Dv] -> gammas_for H g ->
  (0 < n)%nat -> (n <= T)%nat ->
  exists s,
    recurrent_final_state q k v g (seq 0 n) None = Some s /\
    shape s = [B; H; Dh; Dv] /\
    forall b h d m,
      (b < B)%nat -> (h < H)%nat -> (d < Dh)%nat -> (m < Dv)%nat ->
      get s [b; h; d; m] =
      Rsum n (fun j => get (gammas_or_default g q) [h] ^ (n - 1 - j) *
                       (get k [b; h; j; d] * get v [b; h; j; m])).
Proof.
  intros Hq Hk Hv Hg Hn _.
  pose proof (recurrent_final_state_invariant B H T Dh Dv q k v g
                Hq Hk Hv Hg n 0 None eq_refl) as Hfin.
  simpl in Hfin.
  destruct (recurrent_final_state q k v g (seq 0 n) None) as [s|];
    simpl in Hfin; [|lia].
  destruct Hfin as [Hs Hval]. exists s. split; [reflexivity|].
  split; [exact Hs|].
  intros b h d m Hb Hh Hd Hm.
  rewrite Hval by (apply in_bounds_4_intro; assumption). reflexivity.
Qed.


Lemma recurrent_state_closed_form_witness :
  let x := mkTensor [1; 1; 2; 1]%nat (ix4 0 (fun _ _ n _ => 1 + INR n)) in
  let g := full [1%nat] 3 in
  (shape x = [1; 1; 2; 1]%nat /\ gammas_for 1 (Some g) /\
   (0 < 2)%nat /\ (2 <= 2)%nat) /\
  exists s,
    recurrent_final_state x x x (Some g) (seq 0 2) None = Some s /\
    get s [0; 0; 0; 0]%nat = 7.
Proof.
  intros x g. split; [repeat split; lia|].
  destruct (recurrent_state_closed_form 1 1 2 1 1 2 x x x (Some g)
              eq_refl eq_refl eq_refl eq_refl) as (s & Hrun & _ & Hval);
    try lia.
  exists s. split; [exact Hrun|].
  rewrite Hval by lia. simpl. lra.
Defined.

(** The parallel kernel is linear in the values: on the values
    [a * v1 + v2] it returns [a] times its output on [v1] plus its output
    on [v2]. *)
Theorem parallel_linear_in_value (B H N S Dh Dv : nat) (a : R)
    (q k v1 v2 : Tensor R) (g : option (Tensor R)) :
  shape q = [B; H; N; Dh] -> shape k = [B; H; S; Dh] ->
  shape v1 = [B; H; S; Dv] -> shape v2 = [B; H; S; Dv] ->
  valid_gammas H g ->
  exists out1 out2 out,
    (forall nw, exists w, retention_parallel q k v1 g nw = Some (out1, w)) /\
    (forall nw, exists w, retention_parallel q k v2 g nw = Some (out2, w)) /\
    (forall nw, exists w,
       retention_parallel q k
         (broadcast Rplus (tmap (Rmult a) v1) v2) g nw = Some (out, w)) /\
    forall b h i d, (b < B)%nat -> (h < H)%nat -> (i < N)%nat -> (d < Dv)%nat ->
      get out [b; h; i; d] =
      a * get out1 [b; h; i; d] + get out2 [b; h; i; d].
Proof.
  intros Hq Hk Hv1 Hv2 Hg.
  set (v := broadcast Rplus (tmap (Rmult a) v1) v2).
  assert (Hv : shape v = [B; H; S; Dv]).
  { subst v. simpl. rewrite Hv1, Hv2. simpl. rewrite !bdim_diag. reflexivity. }
  assert (Hval : forall b h j d,
            (b < B)%nat -> (h < H)%nat -> (j < S)%nat -> (d < Dv)%nat ->
            get v [b; h; j; d] =
            a * get v1 [b; h; j; d] + get v2 [b; h; j; d]).
  { intros b h j d Hb Hh Hj Hd. subst v. simpl. rewrite Hv1, Hv2. simpl.
    rewrite !bclamp_lt by assumption. reflexivity. }
  clearbody v.
  destruct (retention_parallel_spec B H N S Dh Dv q k v1 g Hq Hk Hv1 Hg)
    as (out1 & w1 & Hpar1 & _ & _ & Hw1 & Hout1).
  destruct (retention_parallel_spec B H N S Dh Dv q k v2 g Hq Hk Hv2 Hg)
    as (out2 & w2 & Hpar2 & _ & _ & Hw2 & Hout2).
  destruct (retention_parallel_spec B H N S Dh Dv q k v g Hq Hk Hv Hg)
    as (out & w & Hpar & _ & _ & Hw & Hout).
  exists out1, out2, out. repeat split.
  - intros nw. eexists. apply Hpar1.
  - intros nw. eexists. apply Hpar2.
  - intros nw. eexists. apply Hpar.
  - intros b h i d Hb Hh Hi Hd.
    rewrite Hout, Hout1, Hout2 by assumption.
    rewrite <- Rsum_scal, <- Rsum_plus. apply Rsum_ext. intros j Hj.
    rewrite Hw, Hw1, Hw2, Hval by assumption. ring.
Qed.

Lemma parallel_linear_in_value_witness :
  let x := mkTensor [1; 1; 2; 1]%nat (ix4 0 (fun _ _ n _ => 1 + INR n)) in
  (shape x = [1; 1; 2; 1]%nat /\ valid_gammas 1 None) /\
  exists out1 out,
    (forall nw, exists w, retention_parallel x x x None nw = Some (out1, w)) /\
    (forall nw, exists w,
       retention_parallel x x (broadcast Rplus (tmap (Rmult 3) x) x) None nw
       = Some (out, w)) /\
    get out [0; 0; 1; 0]%nat = 3 * get out1 [0; 0; 1; 0]%nat +
                               get out1 [0; 0; 1; 0]%nat.
Proof.
  intros x. split; [split; [reflexivity | exact I]|].
  destruct (parallel_linear_in_value 1 1 2 2 1 1 3 x x x x None
              eq_refl eq_refl eq_refl eq_refl I)
    as (out1 & out2 & out & Hr1 & Hr2 & Hr & Hval).
  assert (out2 = out1) as ->.
  { destruct (Hr1 true) as (w1 & E1). destruct (Hr2 true) as (w2 & E2).
    rewrite E1 in E2. injection E2 as <- _. reflexivity. }
  exists out1, out. split; [exact Hr1|]. split; [exact Hr|].
  apply Hval; lia.
Defined.

(** ** Construction *)

(** Which error construction raises: [NotImplementedError] exactly when
    [batch_first] is false, whatever the dimensions.  Otherwise
    [ValueError] exactly for a non-zero head count that does not divide the
    embedding dimension or gives a head dimension that is no multiple of 8
    or exceeds 128; [ZeroDivisionError] exactly for a head count of zero
    or, the head count not being zero, an embedding dimension of zero (its
    empty weights cannot be initialised); [RuntimeError] exactly for a
    negative embedding dimension that passes the three checks (no layer of
    a negative size can be built). *)
Theorem construction_error_kinds (e n : Z) (dr : R) (b bf : bool) :
  (MultiheadRetention.__init__ e n dr b bf =
     MultiheadRetention.Raise MultiheadRetention.NotImplementedError <->
   bf = false) /\
  (MultiheadRetention.__init__ e n dr b bf =
     MultiheadRetention.Raise MultiheadRetention.ValueError <->
   bf = true /\ n <> 0%Z /\
   ((e mod n <> 0)%Z \/ ((e / n) mod 8 <> 0)%Z \/ (128 < e / n)%Z)) /\
  (MultiheadRetention.__init__ e n dr b bf =
     MultiheadRetention.Raise MultiheadRetention.ZeroDivisionError <->
   bf = true /\ (n = 0%Z \/ e = 0%Z)) /\
  (MultiheadRetention.__init__ e n dr b bf =
     MultiheadRetention.Raise MultiheadRetention.RuntimeError <->
   bf = true /\ n <> 0%Z /\ (e < 0)%Z /\
   (e mod n = 0)%Z /\ ((e / n) mod 8 = 0)%Z /\ (e / n <= 128)%Z).
Proof.
  destruct bf.
  2:{ repeat split; try discriminate; intros; try reflexivity;
        intuition congruence. }
  rewrite init_batch_first.
  destruct (Z.eqb_spec n 0) as [Hn|Hn].
  { repeat split; try discriminate; try tauto; intros; try reflexivity;
      intuition congruence. }
  destruct (Z.eqb_spec (e mod n) 0) as [Hm|Hm]; simpl.
  2:{ assert (He0 : e <> 0%Z) by (intros ->; apply Hm, Z.mod_0_l, Hn).
      repeat split; try discriminate; try tauto; intros; try reflexivity;
        intuition congruence. }
  destruct (Z.eqb_spec ((e / n) mod 8) 0) as [H8|H8]; simpl.
  2:{ assert (He0 : e <> 0%Z).
      { intros ->. apply H8. rewrite Z.div_0_l by exact Hn. reflexivity. }
      repeat split; try discriminate; try tauto; intros; try reflexivity;
        intuition congruence. }
  destruct (Z.leb_spec (e / n) 128) as [Hle|Hgt]; simpl.
  2:{ assert (He0 : e <> 0%Z).
      { intros ->. rewrite Z.div_0_l in Hgt by exact Hn. lia. }
      repeat split; try discriminate; try tauto; intros; try reflexivity;
        intuition (try congruence; try lia). }
  destruct (Z.ltb_spec e 0) as [Hneg|Hnn].
  { repeat split; try discriminate; try tauto; intros; try reflexivity;
      intuition (try congruence; try lia). }
  destruct (Z.eqb_spec e 0) as [Hz|Hz].
  { repeat split; try discriminate; try tauto; intros; try reflexivity;
      intuition (try congruence; try lia). }
  repeat split; try discriminate; try tauto; intros;
    intuition (try congruence; try lia).
Qed.

Lemma construction_error_kinds_witness :
  (true = true /\ (16 = 0 \/ 0 = 0)%Z) /\
  MultiheadRetention.__init__ 0 16 0 true true =
    MultiheadRetention.Raise MultiheadRetention.ZeroDivisionError.
Proof.
  split; [split; [reflexivity | right; reflexivity]|].
  apply (proj2 (proj1 (proj2 (proj2
           (construction_error_kinds 0 16 0 true true))))).
  split; [reflexivity | right; reflexivity].
Defined.

(** A module that was constructed is batch-first and keeps the arguments it
    was given, the dropout probability unchecked; its embedding dimension
    is the head count times a head dimension that is a multiple of 8 and at
    most 128, hence itself a multiple of 8, and the head dimension is at
    least 8 when both arguments are positive. *)
Theorem constructed_module_dimensions (e n : Z) (dr : R) (b bf : bool)
    (m : MultiheadRetention.t) :
  MultiheadRetention.__init__ e n dr b bf = MultiheadRetention.Ok m ->
  m = MultiheadRetention.mk e n dr b true /\
  exists head_dim : Z,
    e = (n * head_dim)%Z /\ (head_dim = e / n)%Z /\
    (8 | head_dim)%Z /\ (head_dim <= 128)%Z /\ (8 | e)%Z /\
    ((0 < e)%Z -> (0 < n)%Z -> (8 <= head_dim)%Z).
Proof.
  destruct bf; [|discriminate].
  rewrite init_batch_first.
  destruct (Z.eqb_spec n 0) as [Hn|Hn]; [discriminate|].
  destruct (Z.eqb_spec (e mod n) 0) as [Hm|Hm]; simpl; [|discriminate].
  destruct (Z.eqb_spec ((e / n) mod 8) 0) as [H8|H8]; simpl; [|discriminate].
  destruct (Z.leb_spec (e / n) 128) as [Hle|Hgt]; simpl; [|discriminate].
  destruct (e <? 0)%Z; [discriminate|].
  destruct (e =? 0)%Z; [discriminate|].
  intros [= <-]. split; [reflexivity|].
  exists (e / n)%Z.
  assert (He : e = (n * (e / n))%Z).
  { pose proof (Z.div_mod e n Hn). lia. }
  assert (Hd8 : (8 | e / n)%Z) by (apply Z.mod_divide; [lia | exact H8]).
  split; [exact He|]. split; [reflexivity|]. split; [exact Hd8|].
  split; [exact Hle|]. split.
  - rewrite He at 1. apply Z.divide_mul_r, Hd8.
  - intros Hpe Hpn. destruct Hd8 as [c Hc].
    assert (0 < e / n)%Z by nia. lia.
Qed.

Lemma constructed_module_dimensions_witness :
  MultiheadRetention.__init__ 16 2 (3 / 2) true true =
    MultiheadRetention.Ok (MultiheadRetention.mk 16 2 (3 / 2) true true) /\
  exists head_dim : Z, 16%Z = (2 * head_dim)%Z /\ (8 <= head_dim)%Z.
Proof.
  assert (Hinit : MultiheadRetention.__init__ 16 2 (3 / 2) true true =
            MultiheadRetention.Ok
              (MultiheadRetention.mk 16 2 (3 / 2) true true))
    by (rewrite init_batch_first; reflexivity).
  split; [exact Hinit|].
  destruct (constructed_module_dimensions 16 2 (3 / 2) true true _ Hinit)
    as (_ & hd & He & _ & _ & _ & _ & Hge).
  exists hd. split; [exact He | apply Hge; lia].
Defined.

(** ** The forward passes of the module *)

(** ** Index arithmetic of the rearrangements *)

Lemma div_mul_add (a b n : nat) :
  (b < n)%nat -> ((a * n + b) / n = a)%nat /\ ((a * n + b) mod n = b)%nat.
Proof.
  intros Hb. split.
  - symmetry. apply (Nat.div_unique _ _ a b); lia.
  - symmetry. apply (Nat.mod_unique _ _ a b); lia.
Qed.

Lemma split_index (c h d : nat) :
  (c < h * d)%nat ->
  (c / d < h)%nat /\ (c mod d < d)%nat /\ (c / d * d + c mod d = c)%nat.
Proof.
  intros Hc. assert (Hd : d <> 0%nat) by nia.
  split; [|split].
  - apply Nat.Div0.div_lt_upper_bound. lia.
  - apply Nat.mod_upper_bound, Hd.
  - pose proof (Nat.div_mod_eq c d). lia.
Qed.

(** ** The layers, elementwise *)

(** With as many groups as channels, the normalisation of an element only
    reads the row and channel of the element: two inputs that agree on them
    are normalised alike there. *)
Lemma group_norm_local (G L Rx Ry n n' c : nat) (eps : R) (x y : Tensor R) :
  shape x = [Rx; G; L] -> shape y = [Ry; G; L] -> (c < G)%nat ->
  (forall l, (l < L)%nat -> get x [n; c; l] = get y [n'; c; l]) ->
  forall l, (l < L)%nat ->
    get (group_norm G eps x) [n; c; l] = get (group_norm G eps y) [n'; c; l].
Proof.
  intros Hx Hy Hc Hrow l Hl.
  unfold group_norm, dim. rewrite Hx, Hy. cbn [nth shape get ix3].
  rewrite Nat.div_same by lia.
  cbn [Rsum]. rewrite Nat.div_1_r, Nat.mul_1_r, Nat.add_0_r.
  rewrite (Hrow l Hl).
  rewrite (Rsum_ext L (fun l0 => get x [n; c; l0])
             (fun l0 => get y [n'; c; l0]) Hrow).
  f_equal. f_equal. f_equal. f_equal. f_equal.
  apply Rsum_ext. intros l0 Hl0. rewrite (Hrow l0 Hl0). reflexivity.
Qed.

Lemma F_dropout_eval (x : Tensor R) (p : R) (keep : list nat -> bool) :
  0 <= p <= 1 -> F_dropout x p false keep = Some x.
Proof.
  intros [H0 H1]. unfold F_dropout.
  destruct (Rle_dec 0 p); [|contradiction].
  destruct (Rle_dec p 1); [reflexivity | contradiction].
Qed.

Lemma F_dropout_raises (x : Tensor R) (p : R) (training : bool)
    (keep : list nat -> bool) :
  F_dropout x p training keep = None <-> ~ 0 <= p <= 1.
Proof.
  unfold F_dropout.
  destruct (Rle_dec 0 p); [destruct (Rle_dec p 1)|];
    split; intros H; try discriminate; try tauto; exfalso; tauto.
Qed.

Lemma F_dropout_shape (x y : Tensor R) (p : R) (training : bool)
    (keep : list nat -> bool) :
  F_dropout x p training keep = Some y -> shape y = shape x.
Proof.
  unfold F_dropout.
  destruct (Rle_dec 0 p); [|discriminate].
  destruct (Rle_dec p 1); [|discriminate].
  intros [= <-]. destruct training; [|reflexivity].
  destruct (Req_dec_T p 1); reflexivity.
Qed.

(** ** The forward passes *)

Lemma linear_select1 (layer : Linear) (x : Tensor R) (t b c : nat) :
  get (linear layer (select1 t x)) [b; c] = get (linear layer x) [b; t; c].
Proof. reflexivity. Qed.

Lemma map2_bclamp_in_bounds (ix sh : list nat) :
  in_bounds ix sh -> map2 bclamp sh ix = ix.
Proof.
  intros H. induction H as [|i d ix sh Hi _ IH]; simpl.
  - reflexivity.
  - rewrite bclamp_lt by exact Hi. rewrite IH. reflexivity.
Qed.

Lemma broadcast_get {A B C} (op : A -> B -> C) (a : Tensor A)
    (b : Tensor B) (ix : list nat) :
  in_bounds ix (shape a) -> in_bounds ix (shape b) ->
  get (broadcast op a b) ix = op (get a ix) (get b ix).
Proof.
  intros Ha Hb. unfold broadcast. cbn [get].
  rewrite !map2_bclamp_in_bounds by assumption. reflexivity.
Qed.

Section Forward.

Variable self : Layers.
Variables B N D H Dh : nat.
Variables query key value : Tensor R.
Hypothesis Hmod : module_for D H Dh self.
Hypothesis Hq : shape query = [B; N; D].
Hypothesis Hk : shape key = [B; N; D].
Hypothesis Hv : shape value = [B; N; D].

Local Abbreviation q4 :=
  (rearrange_bn_hd_to_bhnd (heads self) (linear (q_proj self) query)).
Local Abbreviation k4 :=
  (rearrange_bn_hd_to_bhnd (heads self) (linear (k_proj self) key)).
Local Abbreviation v4 :=
  (rearrange_bn_hd_to_bhnd (heads self) (linear (v_proj self) value)).

(** What follows the kernel in [forward_parallel] and in
    [forward_recurrent]. *)
Local Abbreviation after_parallel out :=
  (linear (out_proj self)
     (broadcast Rmult
        (rearrange_bn_hd_to_bn_hd (dim out 0)
           (group_norm (heads self) (group_norm_eps self)
              (rearrange_bhnd_to_bn_hd out)))
        (silu (linear (g_proj self) query)))).
Local Abbreviation after_recurrent ret qt :=
  (linear (out_proj self)
     (broadcast Rmult
        (rearrange_bhd_to_b_hd
           (group_norm (heads self) (group_norm_eps self) ret))
        (silu (linear (g_proj self) qt)))).

Lemma head_dim_eq : (D / H = Dh)%nat.
Proof using Hmod.
  destruct Hmod as (_ & _ & HD & HH & _). rewrite HD, Nat.mul_comm.
  apply Nat.div_mul. lia.
Qed.

Lemma split_heads_seq_shape (layer : Linear) (x : Tensor R) :
  shape (weight layer) = [D; D] -> shape x = [B; N; D] ->
  shape (rearrange_bn_hd_to_bhnd (heads self) (linear layer x))
  = [B; H; N; Dh].
Proof using Hmod.
  intros Hw Hx. destruct Hmod as (_ & Hh & _).
  unfold rearrange_bn_hd_to_bhnd, linear, dim. rewrite Hw, Hx, Hh.
  cbn [shape removelast app nth]. rewrite head_dim_eq. reflexivity.
Qed.

Lemma split_heads_shape (layer : Linear) (x : Tensor R) (t : nat) :
  shape (weight layer) = [D; D] -> shape x = [B; N; D] ->
  shape (rearrange_b_hd_to_bhd (heads self) (linear layer (select1 t x)))
  = [B; H; Dh].
Proof using Hmod.
  intros Hw Hx. destruct Hmod as (_ & Hh & _).
  unfold rearrange_b_hd_to_bhd, linear, select1, dim. rewrite Hw, Hx, Hh.
  cbn [shape removelast app nth]. rewrite head_dim_eq. reflexivity.
Qed.

(** The heads of one position are the heads of the sequence at that
    position. *)
Lemma split_heads_select (layer : Linear) (x : Tensor R) (t b h d : nat) :
  shape (weight layer) = [D; D] -> shape x = [B; N; D] ->
  get (rearrange_b_hd_to_bhd (heads self) (linear layer (select1 t x)))
      [b; h; d] =
  get (rearrange_bn_hd_to_bhnd (heads self) (linear layer x)) [b; h; t; d].
Proof using.
  intros Hw Hx.
  unfold rearrange_b_hd_to_bhd, rearrange_bn_hd_to_bhnd.
  cbn [get ix3 ix4]. rewrite linear_select1.
  replace (dim (linear layer (select1 t x)) 1)
    with (dim (linear layer x) 2); [reflexivity|].
  unfold linear, select1, dim. rewrite Hw, Hx. reflexivity.
Qed.

Lemma normalised_parallel_shape (out : Tensor R) :
  (0 < B)%nat -> shape out = [B; H; N; Dh] ->
  shape (rearrange_bn_hd_to_bn_hd (dim out 0)
           (group_norm (heads self) (group_norm_eps self)
              (rearrange_bhnd_to_bn_hd out)))
  = [B; N; D].
Proof using Hmod.
  intros HB Hout. destruct Hmod as (_ & _ & HD & _).
  unfold rearrange_bn_hd_to_bn_hd, group_norm, rearrange_bhnd_to_bn_hd, dim.
  cbn [shape]. rewrite Hout. cbn [nth].
  rewrite (Nat.mul_comm B N), Nat.div_mul, HD by lia. reflexivity.
Qed.

Lemma normalised_recurrent_shape (ret : Tensor R) :
  shape ret = [B; H; Dh] ->
  shape (rearrange_bhd_to_b_hd
           (group_norm (heads self) (group_norm_eps self) ret))
  = [B; D].
Proof using Hmod.
  intros Hret. destruct Hmod as (_ & _ & HD & _).
  unfold rearrange_bhd_to_b_hd, group_norm, dim.
  cbn [shape]. rewrite Hret, HD. reflexivity.
Qed.

(** Folding the sequence into the batch makes the normalisation of the
    parallel pass the normalisation of one timestep. *)
Lemma normalised_agree (out ret : Tensor R) (t b c : nat) :
  (0 < B)%nat -> (t < N)%nat -> (b < B)%nat -> (c < D)%nat ->
  shape out = [B; H; N; Dh] -> shape ret = [B; H; Dh] ->
  (forall h d, (h < H)%nat -> (d < Dh)%nat ->
     get ret [b; h; d] = get out [b; h; t; d]) ->
  get (rearrange_bhd_to_b_hd
         (group_norm (heads self) (group_norm_eps self) ret)) [b; c] =
  get (rearrange_bn_hd_to_bn_hd (dim out 0)
         (group_norm (heads self) (group_norm_eps self)
            (rearrange_bhnd_to_bn_hd out))) [b; t; c].
Proof using Hmod.
  intros HB Ht Hb Hc Hout Hret Heq.
  destruct Hmod as (_ & Hh & HD & HH & HDh & _).
  assert (Hc' : (c < H * Dh)%nat) by lia.
  destruct (split_index c H Dh Hc') as (Hch & Hcd & _).
  unfold rearrange_bhd_to_b_hd, rearrange_bn_hd_to_bn_hd.
  cbn [get ix3].
  replace (dim (group_norm (heads self) (group_norm_eps self) ret) 2)
    with Dh by (unfold group_norm, dim; cbn [shape]; rewrite Hret;
                reflexivity).
  replace (dim (group_norm (heads self) (group_norm_eps self)
                  (rearrange_bhnd_to_bn_hd out)) 2)
    with Dh by (unfold group_norm, rearrange_bhnd_to_bn_hd, dim;
                cbn [shape]; rewrite Hout; reflexivity).
  replace (dim (group_norm (heads self) (group_norm_eps self)
                  (rearrange_bhnd_to_bn_hd out)) 0 / dim out 0)%nat
    with N.
  2:{ unfold group_norm, rearrange_bhnd_to_bn_hd, dim. cbn [shape].
      rewrite Hout. cbn [nth].
      rewrite (Nat.mul_comm B N), Nat.div_mul by lia. reflexivity. }
  rewrite Hh.
  apply (group_norm_local H Dh B (B * N)); try assumption.
  - unfold rearrange_bhnd_to_bn_hd, dim. rewrite Hout. reflexivity.
  - intros l Hl. unfold rearrange_bhnd_to_bn_hd. cbn [get ix3].
    unfold dim. rewrite Hout. cbn [nth].
    destruct (div_mul_add b t N Ht) as [-> ->].
    apply Heq; assumption.
Qed.

Lemma after_kernel_agree (out ret : Tensor R) (t : nat) :
  (0 < B)%nat -> (t < N)%nat ->
  shape out = [B; H; N; Dh] -> shape ret = [B; H; Dh] ->
  (forall b h d, (b < B)%nat -> (h < H)%nat -> (d < Dh)%nat ->
     get ret [b; h; d] = get out [b; h; t; d]) ->
  shape (after_parallel out) = [B; N; D] /\
  shape (after_recurrent ret (select1 t query)) = [B; D] /\
  forall b o, (b < B)%nat -> (o < D)%nat ->
    get (after_recurrent ret (select1 t query)) [b; o] =
    get (after_parallel out) [b; t; o].
Proof using Hmod Hq.
  intros HB Ht Hout Hret Heq.
  pose proof (normalised_parallel_shape out HB Hout) as Hsp.
  pose proof (normalised_recurrent_shape ret Hret) as Hsr.
  destruct Hmod as (_ & Hh & HD & HH & HDh & _ & _ & _ & Hwg & Hwo).
  assert (Hgp : shape (silu (linear (g_proj self) query)) = [B; N; D]).
  { unfold silu, tmap, linear, dim. cbn [shape]. rewrite Hq, Hwg.
    reflexivity. }
  assert (Hgr : shape (silu (linear (g_proj self) (select1 t query)))
                = [B; D]).
  { unfold silu, tmap, linear, select1, dim. cbn [shape]. rewrite Hq, Hwg.
    reflexivity. }
  split; [|split].
  - unfold linear at 1. cbn [shape]. unfold broadcast at 1. cbn [shape].
    rewrite Hsp, Hgp. unfold dim. rewrite Hwo. cbn [map2 removelast app nth].
    rewrite !bdim_diag. reflexivity.
  - unfold linear at 1. cbn [shape]. unfold broadcast at 1. cbn [shape].
    rewrite Hsr, Hgr. unfold dim. rewrite Hwo. cbn [map2 removelast app nth].
    rewrite !bdim_diag. reflexivity.
  - intros b o Hb Ho.
    unfold linear at 1 3. cbn [get last removelast app].
    unfold dim at 1 2. rewrite Hwo. cbn [nth].
    f_equal. apply Rsum_ext. intros c Hc. f_equal.
    rewrite !broadcast_get;
      rewrite ?Hsp, ?Hsr, ?Hgp, ?Hgr; try (repeat constructor; assumption).
    f_equal. apply normalised_agree; try assumption.
    intros h d Hhh Hd. apply Heq; assumption.
Qed.

Lemma kernel_inputs_valid :
  shape q4 = [B; H; N; Dh] /\ shape k4 = [B; H; N; Dh] /\
  shape v4 = [B; H; N; Dh].
Proof using Hmod Hq Hk Hv.
  destruct Hmod as (_ & _ & _ & _ & _ & Hwq & Hwk & Hwv & _).
  repeat split; apply split_heads_seq_shape; assumption.
Qed.

(** The shape of what follows the kernel, whatever the dropout did. *)
Lemma after_dropout_parallel_shape (x : Tensor R) :
  (0 < B)%nat -> shape x = [(B * N)%nat; H; Dh] ->
  shape (linear (out_proj self)
           (broadcast Rmult
              (rearrange_bn_hd_to_bn_hd B
                 (group_norm (heads self) (group_norm_eps self) x))
              (silu (linear (g_proj self) query))))
  = [B; N; D].
Proof using Hmod Hq.
  intros HB Hx.
  destruct Hmod as (_ & Hh & HD & HH & HDh & _ & _ & _ & Hwg & Hwo).
  unfold linear, broadcast, rearrange_bn_hd_to_bn_hd, group_norm, silu, tmap,
    dim.
  cbn [shape]. rewrite Hx, Hq, Hwg, Hwo. cbn [nth removelast app map2].
  rewrite (Nat.mul_comm B N), Nat.div_mul by lia.
  rewrite !bdim_diag. reflexivity.
Qed.

Lemma after_dropout_recurrent_shape (x qt : Tensor R) :
  shape x = [B; H; Dh] -> shape qt = [B; D] ->
  shape (linear (out_proj self)
           (broadcast Rmult
              (rearrange_bhd_to_b_hd
                 (group_norm (heads self) (group_norm_eps self) x))
              (silu (linear (g_proj self) qt))))
  = [B; D].
Proof using Hmod.
  intros Hx Hqt.
  destruct Hmod as (_ & Hh & HD & HH & HDh & _ & _ & _ & Hwg & Hwo).
  unfold linear, broadcast, rearrange_bhd_to_b_hd, group_norm, silu, tmap,
    dim.
  cbn [shape]. rewrite Hx, Hqt, Hwg, Hwo. cbn [nth removelast app map2].
  rewrite !bdim_diag. reflexivity.
Qed.

(** The parallel pass is the kernel on the projected heads, then the
    normalisation, the gate and the output projection. *)
Lemma forward_parallel_run (need_weights : bool) (keep : list nat -> bool) :
  training self = false -> dropout_valid self ->
  exists out w,
    (forall nw, retention_parallel q4 k4 v4 None nw =
                Some (out, if nw then Some w else None)) /\
    shape out = [B; H; N; Dh] /\ shape w = [B; H; N; N] /\
    (forall b h i m,
       (b < B)%nat -> (h < H)%nat -> (i < N)%nat -> (m < Dh)%nat ->
       get out [b; h; i; m] =
       Rsum Dh (fun d =>
         get q4 [b; h; i; d] *
         accumulated_state k4 v4 (gammas_or_default None q4) (S i) b h d m))
    /\
    forward_parallel self query key value need_weights keep =
    Some (after_parallel out, if need_weights then Some w else None).
Proof using Hmod Hq Hk Hv.
  intros Heval Hdrop.
  destruct kernel_inputs_valid as (Hq4 & Hk4 & Hv4).
  destruct (retention_parallel_spec B H N N Dh Dh q4 k4 v4 None
              Hq4 Hk4 Hv4 I) as (out0 & w & Hpar0 & _ & Hsw & _).
  destruct (parallel_row_as_state B H N Dh Dh q4 k4 v4 None Hq4 Hk4 Hv4 I)
    as (out & w' & Hpar & Hso & Hval).
  assert (Hsame : out0 = out /\ w = w').
  { pose proof (Hpar0 true) as H0. rewrite (Hpar true) in H0.
    injection H0 as -> ->. split; reflexivity. }
  destruct Hsame as [-> <-].
  exists out, w. split; [exact Hpar|]. split; [exact Hso|].
  split; [exact Hsw|]. split; [exact Hval|].
  unfold forward_parallel. rewrite (Hpar need_weights).
  rewrite Heval, F_dropout_eval by exact Hdrop. reflexivity.
Qed.

Local Abbreviation gammas := (gammas_or_default None q4).
Local Abbreviation invariant := (state_at [B; H; Dh; Dh] k4 v4 gammas).

(** One recurrent pass at timestep [t], from the state of the loop. *)
Lemma forward_recurrent_step (out : Tensor R) (t : nat)
    (prev : option (Tensor R)) (keep : list nat -> bool) :
  training self = false -> dropout_valid self ->
  (0 < B)%nat -> (t < N)%nat ->
  shape out = [B; H; N; Dh] ->
  (forall b h i m,
     (b < B)%nat -> (h < H)%nat -> (i < N)%nat -> (m < Dh)%nat ->
     get out [b; h; i; m] =
     Rsum Dh (fun d =>
       get q4 [b; h; i; d] * accumulated_state k4 v4 gammas (S i) b h d m)) ->
  invariant t prev ->
  exists y s,
    forward_recurrent self (select1 t query) (select1 t key)
      (select1 t value) prev keep = Some (y, s) /\
    invariant (S t) (Some s) /\
    tensor_eq y (select1 t (after_parallel out)).
Proof using Hmod Hq Hk Hv.
  intros Heval Hdrop HB Ht Hso Hval Hprev.
  destruct kernel_inputs_valid as (Hq4 & Hk4 & Hv4).
  destruct Hmod as (_ & Hh & HD & HH & HDh & Hwq & Hwk & Hwv & Hwg & Hwo).
  unfold forward_recurrent.
  set (q3 := rearrange_b_hd_to_bhd (heads self)
               (linear (q_proj self) (select1 t query))).
  set (k3 := rearrange_b_hd_to_bhd (heads self)
               (linear (k_proj self) (select1 t key))).
  set (v3 := rearrange_b_hd_to_bhd (heads self)
               (linear (v_proj self) (select1 t value))).
  destruct (recurrent_step_matching B H N Dh Dh q4 k4 v4 q3 k3 v3 None t prev)
    as (Hnext & Hsr & Hret); try assumption.
  - apply split_heads_shape; assumption.
  - apply split_heads_shape; assumption.
  - apply split_heads_shape; assumption.
  - intros b h d _ _ _. split; apply split_heads_select; assumption.
  - intros b h m _ _ _. apply split_heads_select; assumption.
  - exact I.
  - destruct (retention_recurrent q3 k3 v3 prev None) as [ret s] eqn:Hstep.
    cbn [fst snd] in Hnext, Hsr, Hret.
    rewrite Heval, F_dropout_eval by exact Hdrop.
    eexists. exists s. split; [reflexivity|]. split; [exact Hnext|].
    destruct (after_kernel_agree out ret t HB Ht Hso Hsr)
      as (Hsp & Hsrec & Hag).
    { intros b h d Hb Hhh Hd. rewrite Hret, Hval by assumption.
      reflexivity. }
    split.
    + rewrite Hsrec. unfold select1. cbn [shape].
      rewrite !(dim_of_shape _ _ _ Hsp). reflexivity.
    + intros ix Hix. rewrite Hsrec in Hix.
      inversion Hix as [|b ? l1 ? Hb H1]; subst.
      inversion H1 as [|o ? l2 ? Ho H2]; subst.
      inversion H2; subst.
      rewrite Hag by assumption. reflexivity.
Qed.

Lemma forward_recurrent_loop_outputs (out : Tensor R)
    (keeps : nat -> list nat -> bool) :
  training self = false -> dropout_valid self -> (0 < B)%nat ->
  shape out = [B; H; N; Dh] ->
  (forall b h i m,
     (b < B)%nat -> (h < H)%nat -> (i < N)%nat -> (m < Dh)%nat ->
     get out [b; h; i; m] =
     Rsum Dh (fun d =>
       get q4 [b; h; i; d] * accumulated_state k4 v4 gammas (S i) b h d m)) ->
  forall n a prev, invariant a prev -> (a + n <= N)%nat ->
  exists ys,
    forward_recurrent_loop self query key value keeps (seq a n) prev
      = Some ys /\
    length ys = n /\
    forall i, (i < n)%nat ->
      exists y, nth_error ys i = Some y /\
                tensor_eq y (select1 (a + i) (after_parallel out)).
Proof using Hmod Hq Hk Hv.
  intros Heval Hdrop HB Hso Hval.
  induction n as [|n IH]; intros a prev Hprev Han.
  - exists []. split; [reflexivity|]. split; [reflexivity|]. intros i Hi. lia.
  - cbn [seq forward_recurrent_loop].
    destruct (forward_recurrent_step out a prev (keeps a) Heval Hdrop HB
                ltac:(lia) Hso Hval Hprev) as (y & s & Hrun & Hnext & Hy).
    rewrite Hrun.
    destruct (IH (S a) (Some s) Hnext ltac:(lia)) as (ys & Hloop & Hlen & Hys).
    rewrite Hloop. exists (y :: ys). split; [reflexivity|].
    split; [simpl; rewrite Hlen; reflexivity|].
    intros [|i] Hi.
    + exists y. split; [reflexivity|]. rewrite Nat.add_0_r. exact Hy.
    + destruct (Hys i ltac:(lia)) as (y' & Hnth & Hy').
      exists y'. split; [exact Hnth|].
      replace (a + S i)%nat with (S a + i)%nat by lia. exact Hy'.
Qed.

End Forward.

(** The loop of recurrent forward passes reproduces the parallel forward
    pass: outside training, for a module of [H] heads of dimension [Dh] and
    a non-empty batch of sequences of length [N], the recurrent pass stepped
    through the sequence from the absent state returns at step [i] the row
    [i] of the output of the parallel pass. *)
Theorem forward_recurrent_equals_forward_parallel (self : Layers)
    (B N D H Dh : nat) (query key value : Tensor R) (need_weights : bool)
    (keep : list nat -> bool) (keeps : nat -> list nat -> bool) :
  module_for D H Dh self ->
  shape query = [B; N; D] -> shape key = [B; N; D] ->
  shape value = [B; N; D] ->
  training self = false -> dropout_valid self ->
  (0 < B)%nat -> (0 < N)%nat ->
  forward_passes_agree N self query key value need_weights keep keeps.
Proof.
  intros Hmod Hq Hk Hv Heval Hdrop HB _.
  destruct (forward_parallel_run self B N D H Dh query key value
              Hmod Hq Hk Hv need_weights keep Heval Hdrop)
    as (out & w & _ & Hso & _ & Hval & Hpar).
  destruct (forward_recurrent_loop_outputs self B N D H Dh query key value
              Hmod Hq Hk Hv out keeps Heval Hdrop HB Hso Hval N 0 None
              eq_refl (Nat.le_refl _))
    as (ys & Hloop & Hlen & Hys).
  unfold forward_passes_agree. eexists. eexists. exists ys.
  split; [exact Hpar|]. split; [exact Hloop|]. split; [exact Hlen|].
  exact Hys.
Qed.


Lemma forward_recurrent_equals_forward_parallel_witness :
  (module_for 8 1 8 example_module /\
   shape example_batch = [1; 2; 8]%nat /\
   training example_module = false /\ dropout_valid example_module /\
   (0 < 1)%nat /\ (0 < 2)%nat) /\
  forward_passes_agree 2 example_module example_batch example_batch
    example_batch false (fun _ => true) (fun _ _ => true).
Proof.
  assert (Hmod : module_for 8 1 8 example_module)
    by (repeat split; solve [lia | reflexivity]).
  assert (Hdrop : dropout_valid example_module)
    by (unfold dropout_valid; simpl; lra).
  split; [repeat split; solve [lia | reflexivity | simpl; lra]|].
  apply (forward_recurrent_equals_forward_parallel example_module
           1 2 8 1 8); solve [assumption | reflexivity | lia].
Defined.

(** For a module whose dropout probability is in [[0, 1]], on a non-empty
    batch of non-empty sequences of shape [(B, N, D)], the default forward
    pass, which is the parallel one, returns an output of the shape of the
    query, with the weights of shape [(B, H, N, N)] when they are asked for
    and nothing otherwise, in training and outside it. *)
Theorem forward_parallel_shapes (self : Layers) (B N D H Dh : nat)
    (query key value : Tensor R) (need_weights : bool)
    (keep : list nat -> bool) :
  module_for D H Dh self ->
  shape query = [B; N; D] -> shape key = [B; N; D] ->
  shape value = [B; N; D] ->
  dropout_valid self -> (0 < B)%nat -> (0 < N)%nat ->
  exists y weights,
    forward self query key value need_weights keep = Some (y, weights) /\
    shape y = shape query /\
    match weights with
    | Some w => need_weights = true /\ shape w = [B; H; N; N]
    | None => need_weights = false
    end.
Proof.
  intros Hmod Hq Hk Hv Hdrop HB _.
  destruct (kernel_inputs_valid self B N D H Dh query key value Hmod Hq Hk Hv)
    as (Hq4 & Hk4 & Hv4).
  destruct (retention_parallel_spec B H N N Dh Dh _ _ _ None Hq4 Hk4 Hv4 I)
    as (out & w & Hpar & Hso & Hsw & _).
  unfold forward, forward_parallel. rewrite (Hpar need_weights).
  destruct (F_dropout (rearrange_bhnd_to_bn_hd out) _ _ keep) as [x|] eqn:Hx.
  2:{ apply F_dropout_raises in Hx. contradiction. }
  apply F_dropout_shape in Hx.
  eexists. eexists. split; [reflexivity|]. split.
  - rewrite (dim_of_shape _ 0 _ Hso). cbn [nth]. rewrite Hq.
    apply (after_dropout_parallel_shape self B N D H Dh query Hmod Hq x HB).
    rewrite Hx. unfold rearrange_bhnd_to_bn_hd, dim. rewrite Hso. reflexivity.
  - destruct need_weights; [split; [reflexivity | exact Hsw] | reflexivity].
Qed.


Lemma forward_parallel_shapes_witness :
  (module_for 8 1 8 example_module /\
   shape example_batch = [1; 2; 8]%nat /\
   dropout_valid example_module /\ (0 < 1)%nat /\ (0 < 2)%nat) /\
  exists y weights,
    forward example_module example_batch example_batch example_batch true
      (fun _ => true) = Some (y, weights) /\
    shape y = shape example_batch.
Proof.
  assert (Hmod : module_for 8 1 8 example_module)
    by (repeat split; solve [lia | reflexivity]).
  assert (Hdrop : dropout_valid example_module)
    by (unfold dropout_valid; simpl; lra).
  split; [repeat split; solve [lia | reflexivity | simpl; lra]|].
  destruct (forward_parallel_shapes example_module 1 2 8 1 8
              example_batch example_batch example_batch true (fun _ => true)
              Hmod eq_refl eq_refl eq_refl Hdrop)
    as (y & w & Hrun & Hs & _); try lia.
  exists y, w. split; assumption.
Defined.

(** The constructor never looks at the dropout probability: where it
    succeeds for one value it succeeds for every other, and stores it.  A
    forward pass of a module whose probability is not in [[0, 1]] raises,
    the parallel, the recurrent and the default one, in training and
    outside it. *)
Theorem invalid_dropout_raises_in_forward :
  (forall e n dr dr' b bf m,
     MultiheadRetention.__init__ e n dr b bf = MultiheadRetention.Ok m ->
     MultiheadRetention.__init__ e n dr' b bf =
     MultiheadRetention.Ok (MultiheadRetention.mk e n dr' b true)) /\
  (forall self query key value need_weights prev_state keep,
     ~ dropout_valid self ->
     forward_parallel self query key value need_weights keep = None /\
     forward self query key value need_weights keep = None /\
     forward_recurrent self query key value prev_state keep = None).
Proof.
  split.
  - intros e n dr dr' b bf m. destruct bf; [|discriminate].
    rewrite !init_batch_first.
    destruct (n =? 0)%Z; [discriminate|].
    destruct (negb (e mod n =? 0)%Z); [discriminate|].
    destruct (negb ((e / n) mod 8 =? 0)%Z); [discriminate|].
    destruct (negb (e / n <=? 128)%Z); [discriminate|].
    destruct (e <? 0)%Z; [discriminate|].
    destruct (e =? 0)%Z; [discriminate|].
    reflexivity.
  - intros self query key value need_weights prev_state keep Hbad.
    assert (Hpar : forward_parallel self query key value need_weights keep
                   = None).
    { unfold forward_parallel.
      destruct (retention_parallel _ _ _ None need_weights) as [[ret w]|];
        [|reflexivity].
      rewrite (proj2 (F_dropout_raises _ _ _ keep) Hbad). reflexivity. }
    split; [exact Hpar|]. split; [exact Hpar|].
    unfold forward_recurrent.
    destruct (retention_recurrent _ _ _ prev_state None) as [ret s].
    rewrite (proj2 (F_dropout_raises _ _ _ keep) Hbad). reflexivity.
Qed.

Lemma invalid_dropout_raises_in_forward_witness :
  let bad := mkLayers (MultiheadRetention.mk 8 1 (3 / 2) true true)
               example_linear example_linear example_linear (1 / 1000000)
               example_linear example_linear false in
  (MultiheadRetention.__init__ 8 1 0 true true =
     MultiheadRetention.Ok (MultiheadRetention.mk 8 1 0 true true) /\
   ~ dropout_valid bad) /\
  MultiheadRetention.__init__ 8 1 (3 / 2) true true =
    MultiheadRetention.Ok (config bad) /\
  forward bad example_batch example_batch example_batch false
    (fun _ => true) = None.
Proof.
  intros bad.
  assert (Hinit : MultiheadRetention.__init__ 8 1 0 true true =
            MultiheadRetention.Ok (MultiheadRetention.mk 8 1 0 true true))
    by (rewrite init_batch_first; reflexivity).
  assert (Hbad : ~ dropout_valid bad)
    by (unfold dropout_valid; simpl; lra).
  split; [split; [exact Hinit | exact Hbad]|]. split.
  - apply (proj1 invalid_dropout_raises_in_forward 8%Z 1%Z 0 (3 / 2) true
             true _ Hinit).
  - apply (proj2 invalid_dropout_raises_in_forward bad example_batch
             example_batch example_batch false None (fun _ => true) Hbad).
Defined.

(** ** Causality of the parallel forward pass *)

Lemma linear_row_ext (layer : Linear) (Dout Din : nat) (x x' : Tensor R)
    (b j o : nat) :
  shape (weight layer) = [Dout; Din] ->
  (forall c, (c < Din)%nat -> get x [b; j; c] = get x' [b; j; c]) ->
  get (linear layer x) [b; j; o] = get (linear layer x') [b; j; o].
Proof.
  intros Hw Hx. unfold linear. cbn [get last removelast app].
  unfold dim. rewrite Hw. cbn [nth]. f_equal.
  apply Rsum_ext. intros c Hc. rewrite (Hx c Hc). reflexivity.
Qed.

Lemma split_heads_seq_ext (h : nat) (layer : Linear) (D B N : nat)
    (x x' : Tensor R) (b hh j d : nat) :
  shape (weight layer) = [D; D] ->
  shape x = [B; N; D] -> shape x' = [B; N; D] ->
  (forall c, (c < D)%nat -> get x [b; j; c] = get x' [b; j; c]) ->
  get (rearrange_bn_hd_to_bhnd h (linear layer x)) [b; hh; j; d] =
  get (rearrange_bn_hd_to_bhnd h (linear layer x')) [b; hh; j; d].
Proof.
  intros Hw Hx Hx' Heq. unfold rearrange_bn_hd_to_bhnd. cbn [get ix4].
  replace (dim (linear layer x') 2) with (dim (linear layer x) 2)
    by (unfold linear, dim; cbn [shape]; rewrite Hx, Hx'; reflexivity).
  apply (linear_row_ext layer D D); assumption.
Qed.

(** The gate of one position only reads the query at that position. *)
Lemma after_recurrent_gate_ext (self : Layers) (B N D H Dh : nat)
    (ret : Tensor R) (x x' : Tensor R) (t b o : nat) :
  module_for D H Dh self ->
  shape x = [B; N; D] -> shape x' = [B; N; D] -> shape ret = [B; H; Dh] ->
  (b < B)%nat -> (o < D)%nat ->
  (forall c, (c < D)%nat -> get x [b; t; c] = get x' [b; t; c]) ->
  get (linear (out_proj self)
         (broadcast Rmult
            (rearrange_bhd_to_b_hd
               (group_norm (heads self) (group_norm_eps self) ret))
            (silu (linear (g_proj self) (select1 t x))))) [b; o] =
  get (linear (out_proj self)
         (broadcast Rmult
            (rearrange_bhd_to_b_hd
               (group_norm (heads self) (group_norm_eps self) ret))
            (silu (linear (g_proj self) (select1 t x'))))) [b; o].
Proof.
  intros Hmod Hx Hx' Hret Hb Ho Heq.
  assert (Hsr : shape (rearrange_bhd_to_b_hd
                  (group_norm (heads self) (group_norm_eps self) ret))
                = [B; D])
    by (eapply normalised_recurrent_shape; eassumption).
  destruct Hmod as (_ & Hh & HD & HH & HDh & _ & _ & _ & Hwg & Hwo).
  assert (Hg : forall y : Tensor R, shape y = [B; N; D] ->
            shape (silu (linear (g_proj self) (select1 t y))) = [B; D]).
  { intros y Hy. unfold silu, tmap, linear, select1, dim. cbn [shape].
    rewrite Hy, Hwg. reflexivity. }
  unfold linear at 1 3. cbn [get last removelast app].
  unfold dim at 1 2. rewrite Hwo. cbn [nth].
  f_equal. apply Rsum_ext. intros c Hc. f_equal.
  rewrite !broadcast_get;
    rewrite ?Hsr, ?(Hg x Hx), ?(Hg x' Hx');
    try (repeat constructor; assumption).
  f_equal. unfold silu, tmap. cbn [get].
  rewrite !linear_select1.
  rewrite (linear_row_ext (g_proj self) D D x x' b t c Hwg Heq).
  reflexivity.
Qed.

(** Outside training, position [i] of the output of the parallel forward
    pass only reads the inputs at positions up to [i]. *)
Theorem forward_parallel_causal (self : Layers) (B N D H Dh i : nat)
    (query key value query' key' value' : Tensor R) (need_weights : bool)
    (keep keep' : list nat -> bool) :
  module_for D H Dh self ->
  shape query = [B; N; D] -> shape key = [B; N; D] ->
  shape value = [B; N; D] ->
  shape query' = [B; N; D] -> shape key' = [B; N; D] ->
  shape value' = [B; N; D] ->
  training self = false -> dropout_valid self -> (0 < B)%nat ->
  (i < N)%nat ->
  (forall b j c, (b < B)%nat -> (j <= i)%nat -> (c < D)%nat ->
     get query [b; j; c] = get query' [b; j; c] /\
     get key [b; j; c] = get key' [b; j; c] /\
     get value [b; j; c] = get value' [b; j; c]) ->
  exists y w y' w',
    forward_parallel self query key value need_weights keep = Some (y, w) /\
    forward_parallel self query' key' value' need_weights keep'
      = Some (y', w') /\
    forall b o, (b < B)%nat -> (o < D)%nat ->
      get y [b; i; o] = get y' [b; i; o].
Proof.
  intros Hmod Hq Hk Hv Hq' Hk' Hv' Heval Hdrop HB Hi Hagree.
  destruct (forward_parallel_run self B N D H Dh query key value
              Hmod Hq Hk Hv need_weights keep Heval Hdrop)
    as (out & w & Hker & Hso & _ & _ & Hfp).
  destruct (forward_parallel_run self B N D H Dh query' key' value'
              Hmod Hq' Hk' Hv' need_weights keep' Heval Hdrop)
    as (out' & w' & Hker' & Hso' & _ & _ & Hfp').
  destruct (kernel_inputs_valid self B N D H Dh query key value
              Hmod Hq Hk Hv) as (Hq4 & Hk4 & Hv4).
  destruct (kernel_inputs_valid self B N D H Dh query' key' value'
              Hmod Hq' Hk' Hv') as (Hq4' & Hk4' & Hv4').
  pose proof Hmod as (_ & _ & _ & _ & _ & Hwq & Hwk & Hwv & _).
  destruct (parallel_rows_agree B H N N Dh Dh i _ _ _ _ _ _ None
              Hq4 Hk4 Hv4 Hq4' Hk4' Hv4' I Hi)
    as (o1 & o2 & Hr1 & Hr2 & Hrows).
  { intros b h d Hb _ _. apply (split_heads_seq_ext _ _ D B N);
      try assumption. intros c Hc. apply Hagree; [assumption | lia | exact Hc]. }
  { intros b h j d Hb _ Hj _ _. apply (split_heads_seq_ext _ _ D B N);
      try assumption. intros c Hc. apply Hagree; assumption. }
  { intros b h j d Hb _ Hj _ _. apply (split_heads_seq_ext _ _ D B N);
      try assumption. intros c Hc. apply Hagree; assumption. }
  assert (o1 = out /\ o2 = out') as [-> ->].
  { destruct (Hr1 true) as (? & E1). destruct (Hr2 true) as (? & E2).
    rewrite (Hker true) in E1. rewrite (Hker' true) in E2.
    injection E1 as <- _. injection E2 as <- _. split; reflexivity. }
  set (ret := select2 i out).
  assert (Hret : shape ret = [B; H; Dh]).
  { subst ret. unfold select2. cbn [shape].
    rewrite !(dim_of_shape _ _ _ Hso). reflexivity. }
  destruct (after_kernel_agree self B N D H Dh query Hmod Hq out ret i
              HB Hi Hso Hret) as (_ & _ & Hag).
  { intros b h d _ _ _. reflexivity. }
  destruct (after_kernel_agree self B N D H Dh query' Hmod Hq' out' ret i
              HB Hi Hso' Hret) as (_ & _ & Hag').
  { intros b h d Hb Hh Hd. subst ret. cbn [select2 get].
    apply Hrows; assumption. }
  eexists. eexists. eexists. eexists.
  split; [exact Hfp|]. split; [exact Hfp'|].
  intros b o Hb Ho.
  rewrite <- Hag, <- Hag' by assumption.
  apply (after_recurrent_gate_ext self B N D H Dh ret query query' i b o);
    try assumption.
  intros c Hc. apply Hagree; [assumption | lia | exact Hc].
Qed.

Lemma forward_parallel_causal_witness :
  let later := mkTensor [1; 2; 8]%nat
                 (ix3 0 (fun _ n c =>
                    if (n =? 0)%nat then INR c else 7)) in
  (module_for 8 1 8 example_module /\
   shape example_batch = [1; 2; 8]%nat /\ shape later = [1; 2; 8]%nat /\
   training example_module = false /\ dropout_valid example_module /\
   (0 < 1)%nat /\ (0 < 2)%nat) /\
  exists y w y' w',
    forward_parallel example_module example_batch example_batch
      example_batch false (fun _ => true) = Some (y, w) /\
    forward_parallel example_module later later later false
      (fun _ => true) = Some (y', w') /\
    get y [0; 0; 3]%nat = get y' [0; 0; 3]%nat.
Proof.
  intros later.
  assert (Hmod : module_for 8 1 8 example_module)
    by (repeat split; solve [lia | reflexivity]).
  assert (Hdrop : dropout_valid example_module)
    by (unfold dropout_valid; simpl; lra).
  split; [repeat split; solve [lia | reflexivity | simpl; lra]|].
  destruct (forward_parallel_causal example_module 1 2 8 1 8 0
              example_batch example_batch example_batch later later later
              false (fun _ => true) (fun _ => true)
              Hmod eq_refl eq_refl eq_refl eq_refl eq_refl eq_refl
              eq_refl Hdrop)
    as (y & w & y' & w' & Hrun & Hrun' & Hrow); try lia.
  - intros b j c _ Hj _. assert (j = 0)%nat as -> by lia.
    simpl. repeat split; lra.
  - exists y, w, y', w'. split; [exact Hrun|]. split; [exact Hrun'|].
    apply Hrow; lia.
Defined.

(** For a module whose dropout probability is in [[0, 1]], on a non-empty
    batch of single timesteps of shape [(B, D)] and a previous state of
    shape [(B, H, Dh, Dh)] or none, one recurrent pass returns an output of
    the shape of its query and a state of shape [(B, H, Dh, Dh)], in
    training and outside it. *)
Theorem forward_recurrent_shapes (self : Layers) (B D H Dh : nat)
    (query key value : Tensor R) (prev_state : option (Tensor R))
    (keep : list nat -> bool) :
  module_for D H Dh self ->
  shape query = [B; D] -> shape key = [B; D] -> shape value = [B; D] ->
  state_for [B; H; Dh; Dh] prev_state ->
  dropout_valid self -> (0 < B)%nat ->
  exists y state,
    forward_recurrent self query key value prev_state keep
      = Some (y, state) /\
    shape y = shape query /\ shape state = [B; H; Dh; Dh].
Proof.
  intros Hmod Hq Hk Hv Hprev Hdrop _.
  pose proof Hmod as (_ & Hh & HD & HH & HDh & Hwq & Hwk & Hwv & Hwg & Hwo).
  assert (Hdiv : (D / H = Dh)%nat).
  { rewrite HD, Nat.mul_comm. apply Nat.div_mul. lia. }
  assert (Hs3 : forall layer x, shape (weight layer) = [D; D] ->
            shape x = [B; D] ->
            shape (rearrange_b_hd_to_bhd (heads self) (linear layer x))
            = [B; H; Dh]).
  { intros layer x Hw Hx.
    unfold rearrange_b_hd_to_bhd, linear, dim. rewrite Hw, Hx, Hh.
    cbn [shape removelast app nth]. rewrite Hdiv. reflexivity. }
  unfold forward_recurrent.
  destruct (retention_recurrent_spec B H Dh Dh _ _ _ prev_state None
              (Hs3 _ _ Hwq Hq) (Hs3 _ _ Hwk Hk) (Hs3 _ _ Hwv Hv) Hprev I)
    as (Hso & Hss & _).
  destruct (retention_recurrent _ _ _ prev_state None) as [ret state].
  cbn [fst snd] in Hso, Hss.
  destruct (F_dropout ret _ _ keep) as [x|] eqn:Hx.
  2:{ apply F_dropout_raises in Hx. contradiction. }
  apply F_dropout_shape in Hx.
  eexists. exists state. split; [reflexivity|]. split; [|exact Hss].
  rewrite Hq.
  apply (after_dropout_recurrent_shape self B D H Dh Hmod);
    [rewrite Hx; exact Hso | exact Hq].
Qed.

Lemma forward_recurrent_shapes_witness :
  (module_for 8 1 8 example_module /\
   shape (select1 0 example_batch) = [1; 8]%nat /\
   state_for [1; 1; 8; 8]%nat None /\ dropout_valid example_module /\
   (0 < 1)%nat) /\
  exists y state,
    forward_recurrent example_module (select1 0 example_batch)
      (select1 0 example_batch) (select1 0 example_batch) None
      (fun _ => true) = Some (y, state) /\
    shape y = [1; 8]%nat /\ shape state = [1; 1; 8; 8]%nat.
Proof.
  assert (Hmod : module_for 8 1 8 example_module)
    by (repeat split; solve [lia | reflexivity]).
  assert (Hdrop : dropout_valid example_module)
    by (unfold dropout_valid; simpl; lra).
  split; [repeat split; solve [lia | reflexivity | simpl; lra]|].
  destruct (forward_recurrent_shapes example_module 1 8 1 8
              (select1 0 example_batch) (select1 0 example_batch)
              (select1 0 example_batch) None (fun _ => true)
              Hmod eq_refl eq_refl eq_refl I Hdrop ltac:(lia))
    as (y & state & Hrun & Hsy & Hss).
  exists y, state. repeat split; assumption.
Defined.
